(** * London Playgrounds directory: the page frontmatter and the enrichment engine

    The first part embeds the TypeScript frontmatter of the Astro pages
    (the index page, [src/pages/playground/[slug].astro] and
    [src/components/PlaygroundCard.astro]): the slug, area and amenity
    helpers, the record processing and the guards of the components.
    The second part models the enrichment engine (merger, retry policy,
    cache) whose code is not part of the sources. *)

From Stdlib Require Import ZArith NArith List Bool Lia QArith Ascii String.
From Stdlib Require Import Sorted.
From stdpp Require Import base option list gmap strings pretty.

(** ** JavaScript strings

    A JavaScript string is a sequence of UTF-16 code units. The regular
    expressions of the sources carry no [u] flag and so work on code units;
    [startsWith], [includes] and [trim] are defined on them too. *)

Module JS.

#[local] Open Scope N_scope.

Definition code_unit := N.
Definition jsstring := list code_unit.

(** String literals of the source, written as Rocq strings. *)
Definition lit (s : string) : jsstring :=
  map (fun a => N_of_ascii a) (String.list_ascii_of_string s).

Definition hyphen : code_unit := 45.
Definition space : code_unit := 32.
Definition comma : code_unit := 44.

Definition is_ascii (c : code_unit) : bool := c <? 128.
Definition is_upper (c : code_unit) : bool := (65 <=? c) && (c <=? 90).
Definition is_lower (c : code_unit) : bool := (97 <=? c) && (c <=? 122).
Definition is_digit (c : code_unit) : bool := (48 <=? c) && (c <=? 57).

(** The character class [[a-z0-9]]. *)
Definition is_alnum (c : code_unit) : bool := is_lower c || is_digit c.

Definition ascii_lower (c : code_unit) : code_unit :=
  if is_upper c then c + 32 else c.
Definition ascii_upper (c : code_unit) : code_unit :=
  if is_lower c then c - 32 else c.

(** [String.prototype.toLowerCase] and [toUpperCase] follow the Unicode
    default case conversion, which may change the length of a string and
    maps some code units outside ASCII to ASCII letters. The model takes
    the two functions as an interface and fixes only what they do on ASCII
    strings. *)
Class CaseMapping := {
  toLowerCase : jsstring -> jsstring;
  toUpperCase : jsstring -> jsstring;
  toLowerCase_ascii : forall s,
    forallb is_ascii s = true -> toLowerCase s = map ascii_lower s;
  toUpperCase_ascii : forall s,
    forallb is_ascii s = true -> toUpperCase s = map ascii_upper s
}.

(** WhiteSpace and LineTerminator code points, as [trim] strips them. *)
Definition is_whitespace (c : code_unit) : bool :=
  ((9 <=? c) && (c <=? 13)) || (c =? 32) || (c =? 160) || (c =? 5760)
  || ((8192 <=? c) && (c <=? 8202)) || (c =? 8232) || (c =? 8233)
  || (c =? 8239) || (c =? 8287) || (c =? 12288) || (c =? 65279).

Fixpoint trimStart (s : jsstring) : jsstring :=
  match s with
  | [] => []
  | c :: s' => if is_whitespace c then trimStart s' else s
  end.

Definition trimEnd (s : jsstring) : jsstring := rev (trimStart (rev s)).

Definition trim (s : jsstring) : jsstring := trimEnd (trimStart s).

Fixpoint startsWith (s prefix : jsstring) : bool :=
  match prefix, s with
  | [], _ => true
  | p :: prefix', c :: s' => (c =? p) && startsWith s' prefix'
  | _ :: _, [] => false
  end.

Fixpoint includes (s pat : jsstring) : bool :=
  startsWith s pat ||
  match s with
  | [] => false
  | _ :: s' => includes s' pat
  end.

(** [s.replace(/[^a-z0-9]+/g, '-')]: every maximal run of code units
    outside [[a-z0-9]] becomes one hyphen. [in_run] tells that the run the
    scan is in has already been replaced. *)
Fixpoint replace_runs (in_run : bool) (s : jsstring) : jsstring :=
  match s with
  | [] => []
  | c :: s' =>
      if is_alnum c then c :: replace_runs false s'
      else if in_run then replace_runs true s'
      else hyphen :: replace_runs true s'
  end.

Definition replace_non_alnum (s : jsstring) : jsstring := replace_runs false s.

(** [s.replace(/(^-|-$)/g, '')]: the first alternative matches a hyphen at
    index 0 only, the second a hyphen that is the last code unit; the scan
    resumes after a match, so a lone hyphen is matched once. *)
Definition strip_last_hyphen (s : jsstring) : jsstring :=
  match last s with
  | Some c => if c =? hyphen then removelast s else s
  | None => s
  end.

Definition strip_edge_hyphens (s : jsstring) : jsstring :=
  match s with
  | c :: s' => if c =? hyphen then strip_last_hyphen s' else strip_last_hyphen s
  | [] => []
  end.

(** The ASCII-only case mapping: an instance of the interface, used to run
    the definitions on ASCII inputs. *)
Definition ascii_toLowerCase (s : jsstring) : jsstring := map ascii_lower s.
Definition ascii_toUpperCase (s : jsstring) : jsstring := map ascii_upper s.

Definition ascii_case : CaseMapping :=
  {| toLowerCase := ascii_toLowerCase;
     toUpperCase := ascii_toUpperCase;
     toLowerCase_ascii := fun s _ => eq_refl;
     toUpperCase_ascii := fun s _ => eq_refl |}.

(** ** JavaScript values

    The data file is JSON: its values are null, booleans, numbers, strings,
    arrays and objects; [VUndefined] is what reading an absent property
    gives. Numbers are IEEE doubles; the sources only coerce them to
    booleans and strings and subtract them, so the model takes the number
    type with these three operations as an interface. *)
Class Number (number : Type) := {
  (** Number::toString, as a template literal applies it *)
  number_to_string : number -> jsstring;
  (** ToBoolean: false for zero (and NaN, which JSON cannot denote) *)
  number_truthy : number -> bool;
  (** the sign of the difference [x - y] of two finite numbers *)
  number_compare : number -> number -> comparison
}.

(** Integers as numbers: an instance of the interface, used to run the
    definitions on integer-valued data. *)
Definition Z_number : Number Z :=
  {| number_to_string := fun z => lit (pretty z);
     number_truthy := fun z => negb (z =? 0)%Z;
     number_compare := Z.compare |}.

#[warnings="-register-all"]
Inductive jsvalue (number : Type) : Type :=
| VUndefined
| VNull
| VBool (b : bool)
| VNumber (n : number)
| VString (s : jsstring)
| VArray (elems : list (jsvalue number))
| VObject (props : gmap jsstring (jsvalue number)).

Arguments VUndefined {number}.
Arguments VNull {number}.
Arguments VBool {number} b.
Arguments VNumber {number} n.
Arguments VString {number} s.
Arguments VArray {number} elems.
Arguments VObject {number} props.

(** Exceptions: the [TypeError] the runtime raises (its message depends on
    the engine and is left out) and [new Error(message)]. *)
Inductive js_error :=
| TypeError
| Error (message : jsstring).

Inductive result (A : Type) : Type :=
| Ok (a : A)
| Throw (e : js_error).

Arguments Ok {A} a.
Arguments Throw {A} e.

#[global] Instance result_ret : MRet result := fun A a => Ok a.
#[global] Instance result_bind : MBind result := fun A B k r =>
  match r with
  | Ok a => k a
  | Throw e => Throw e
  end.

(** [Array.prototype.map] and [filter] with a callback that may throw: the
    first exception ends the traversal. *)
Fixpoint array_map {A B} (f : A -> result B) (l : list A) : result (list B) :=
  match l with
  | [] => Ok []
  | x :: l' => y ← f x; ys ← array_map f l'; Ok (y :: ys)
  end.

Fixpoint array_filter {A} (f : A -> result bool) (l : list A)
  : result (list A) :=
  match l with
  | [] => Ok []
  | x :: l' =>
      b ← f x; ys ← array_filter f l'; Ok (if (b : bool) then x :: ys else ys)
  end.

(** Whether a callback of [filter] keeps [x]. *)
Definition passes {A} (f : A -> result bool) (x : A) : bool :=
  match f x with
  | Ok true => true
  | _ => false
  end.

Fixpoint join (sep : jsstring) (l : list jsstring) : jsstring :=
  match l with
  | [] => []
  | [s] => s
  | s :: l' => s ++ sep ++ join sep l'
  end.

Section Values.
Context {number : Type} `{!Number number}.

(** ToBoolean *)
Definition truthy (v : jsvalue number) : bool :=
  match v with
  | VUndefined | VNull => false
  | VBool b => b
  | VNumber n => number_truthy n
  | VString s => negb (bool_decide (s = []))
  | VArray _ | VObject _ => true
  end.

(** [typeof v === 'string'] *)
Definition is_string (v : jsvalue number) : bool :=
  match v with
  | VString _ => true
  | _ => false
  end.

(** ToString, as a template literal and [join] apply it to a value of the
    JSON data. An array is its elements joined by commas, with null and
    undefined elements left empty. An object is '[object Object]' through
    [Object.prototype.toString], unless it has a property [toString] of
    its own: no value of the data is a function, so the conversion then
    finds no method that returns a primitive and throws a [TypeError]. *)
Fixpoint to_string (v : jsvalue number) : result jsstring :=
  match v with
  | VUndefined => Ok (lit "undefined")
  | VNull => Ok (lit "null")
  | VBool true => Ok (lit "true")
  | VBool false => Ok (lit "false")
  | VNumber n => Ok (number_to_string n)
  | VString s => Ok s
  | VArray elems =>
      strings ←
        (fix each (l : list (jsvalue number)) : result (list jsstring) :=
           match l with
           | [] => Ok []
           | e :: l' =>
               s ← match e with
                   | VUndefined | VNull => Ok []
                   | _ => to_string e
                   end;
               ss ← each l';
               Ok (s :: ss)
           end) elems;
      Ok (join [comma] strings)
  | VObject props =>
      match props !! lit "toString" with
      | Some _ => Throw TypeError
      | None => Ok (lit "[object Object]")
      end
  end.

(** The values [ToString] converts without a fault. *)
Definition printable (v : jsvalue number) : bool :=
  match to_string v with
  | Ok _ => true
  | Throw _ => false
  end.

(** Reading a property. The names the sources read ([name], [slug],
    [postal_code], [description], [subtypes], [rating], [playground]) are
    own properties of objects only: on a primitive or an array they are
    undefined, on null and undefined the read throws. *)
Definition get (v : jsvalue number) (k : jsstring) : result (jsvalue number) :=
  match v with
  | VUndefined | VNull => Throw TypeError
  | VObject props => Ok (default VUndefined (props !! k))
  | _ => Ok VUndefined
  end.

(** The key of index [i] of an array or a string. *)
Definition index_key (i : nat) : jsstring := lit (pretty (N.of_nat i)).

(** The own enumerable properties an object spread [{...v}] copies. *)
Definition spread (v : jsvalue number) : gmap jsstring (jsvalue number) :=
  match v with
  | VObject props => props
  | VArray elems => list_to_map (imap (fun i e => (index_key i, e)) elems)
  | VString s => list_to_map (imap (fun i c => (index_key i, VString [c])) s)
  | _ => ∅
  end.

(** Calling a string method on a value: a [TypeError] unless the value is a
    string. *)
Definition this_string (v : jsvalue number) : result jsstring :=
  match v with
  | VString s => Ok s
  | _ => Throw TypeError
  end.

(** [Array.prototype.sort] with a consistent comparator: the sort is
    stable, so its result is the one of a stable insertion sort. [cmp x y]
    is the sign of the comparator's result at [(x, y)]. *)
Fixpoint sort_insert {A} (cmp : A -> A -> comparison) (x : A) (l : list A)
  : list A :=
  match l with
  | [] => [x]
  | y :: l' =>
      match cmp x y with
      | Gt => y :: sort_insert cmp x l'
      | _ => x :: l
      end
  end.

Definition sort {A} (cmp : A -> A -> comparison) (l : list A) : list A :=
  foldr (sort_insert cmp) [] l.

End Values.

(** The code units a slug is made of: [[a-z0-9]] and the hyphen. *)
Definition slug_unit (c : code_unit) : Prop := is_alnum c = true \/ c = hyphen.

(** No two hyphens in a row. *)
Fixpoint single_hyphens (s : jsstring) : Prop :=
  match s with
  | c :: (d :: _) as s' => ~ (c = hyphen /\ d = hyphen) /\ single_hyphens s'
  | _ => True
  end.

End JS.

Import JS.

(** ** The index page: its frontmatter *)

Module IndexPage.
Section Frontmatter.
Context {number : Type} `{!Number number} `{!CaseMapping}.

Definition createSlug (name : jsstring) : jsstring :=
  strip_edge_hyphens (replace_non_alnum (trim (toLowerCase name))).

Definition determineArea (postalCode : jsvalue number) : result jsstring :=
  if negb (truthy postalCode) then Ok (lit "Unknown")
  else
    code ← this_string postalCode;
    let code := toUpperCase code in
    if startsWith code (lit "N") then Ok (lit "North London")
    else if startsWith code (lit "S") then Ok (lit "South London")
    else if startsWith code (lit "E") then Ok (lit "East London")
    else if startsWith code (lit "W") then Ok (lit "West London")
    else if startsWith code (lit "WC") || startsWith code (lit "EC")
         then Ok (lit "Central London")
    else Ok (lit "Other London").

(** The entries of [amenityKeywords], in insertion order. *)
Definition amenityKeywords : list (jsstring * jsstring) :=
  [ (lit "swing", lit "Swings");
    (lit "slide", lit "Slides");
    (lit "climb", lit "Climbing Frame");
    (lit "sand", lit "Sandbox");
    (lit "water", lit "Water Play");
    (lit "seat", lit "Seating Area");
    (lit "toilet", lit "Toilets");
    (lit "parking", lit "Parking") ].

(** [Set.prototype.add] on a set kept in insertion order. *)
Definition set_add (x : jsstring) (s : list jsstring) : list jsstring :=
  if bool_decide (x ∈ s) then s else s ++ [x].

Definition searchText (description subtypes : jsvalue number)
  : result jsstring :=
  description ← to_string description;
  subtypes ← to_string subtypes;
  Ok (toLowerCase (description ++ [space] ++ subtypes)).

Definition extractAmenities (description subtypes : jsvalue number)
  : result (list jsstring) :=
  searchText ← searchText description subtypes;
  Ok (fold_left
        (fun amenities '(keyword, amenity) =>
           if includes searchText keyword
           then set_add amenity amenities
           else amenities)
        amenityKeywords []).

(** [playground => playground.name && typeof playground.name === 'string'] *)
Definition has_name (playground : jsvalue number) : result bool :=
  name ← get playground (lit "name");
  Ok (truthy name && is_string name).

(** The callback of [map]: the spread of the record, then [slug], [area]
    and [amenities], evaluated in this order. *)
Definition enrich (playground : jsvalue number) : result (jsvalue number) :=
  let original := spread playground in
  name ← get playground (lit "name");
  name ← this_string name;
  let slug := createSlug name in
  postal_code ← get playground (lit "postal_code");
  area ← determineArea postal_code;
  description ← get playground (lit "description");
  subtypes ← get playground (lit "subtypes");
  amenities ← extractAmenities description subtypes;
  Ok (VObject (<[lit "amenities" := VArray (VString <$> amenities)]>
              (<[lit "area" := VString area]>
              (<[lit "slug" := VString slug]> original)))).

(** The fields [enrich] sets on a record. *)
Definition with_added (props : gmap jsstring (jsvalue number))
  (slug area : jsstring)
  (amenities : list jsstring) : jsvalue number :=
  VObject (<[lit "amenities" := VArray (VString <$> amenities)]>
          (<[lit "area" := VString area]>
          (<[lit "slug" := VString slug]> props))).

(** [playground => playground.slug] *)
Definition has_slug (playground : jsvalue number) : result bool :=
  slug ← get playground (lit "slug");
  Ok (truthy slug).

Definition processedPlaygrounds (playgrounds : list (jsvalue number))
  : result (list (jsvalue number)) :=
  named ← array_filter has_name playgrounds;
  mapped ← array_map enrich named;
  array_filter has_slug mapped.

(** The two arrays of the frontmatter once it has run. *)
Record frontmatter := {
  fm_processedPlaygrounds : list (jsvalue number);
  fm_featuredPlaygrounds : list (jsvalue number)
}.

Definition rating_of (playground : jsvalue number) : option number :=
  match get playground (lit "rating") with
  | Ok (VNumber n) => Some n
  | _ => None
  end.

(** [(a, b) => b.rating - a.rating], on records keyed by their rating. *)
Definition by_rating_desc (a b : number * jsvalue number) : comparison :=
  number_compare (fst b) (fst a).

(** [processedPlaygrounds.sort(...).slice(0, 6)]: [sort] sorts the array it
    is called on and returns that same array, so [processedPlaygrounds] is
    the sorted array from here on. The step is modelled where every rating
    is a number; otherwise the comparator yields NaN and the order is left
    to the engine. *)
Definition featured_step (processed : list (jsvalue number))
  : option frontmatter :=
  keyed ← mapM (fun p => r ← rating_of p; Some (r, p)) processed;
  let sorted := snd <$> sort by_rating_desc keyed in
  Some {| fm_processedPlaygrounds := sorted;
          fm_featuredPlaygrounds := take 6 sorted |}.

(** The records the processing keeps: those whose [name] is a non-empty
    string with a non-empty slug. *)
Definition is_kept (playground : jsvalue number) : bool :=
  match get playground (lit "name") with
  | Ok (VString name) =>
      negb (bool_decide (name = []))
      && negb (bool_decide (createSlug name = []))
  | _ => false
  end.

(** The records [determineArea] accepts: values other than null and
    undefined whose [postal_code] is absent, falsy or a string. *)
Definition area_defined (playground : jsvalue number) : bool :=
  match get playground (lit "postal_code") with
  | Ok postal_code => negb (truthy postal_code) || is_string postal_code
  | Throw _ => false
  end.

(** The records [enrich] accepts: those [determineArea] accepts whose
    [description] and [subtypes] convert to strings. *)
Definition enrichable (playground : jsvalue number) : bool :=
  match get playground (lit "description"),
        get playground (lit "subtypes") with
  | Ok description, Ok subtypes =>
      area_defined playground && printable description && printable subtypes
  | _, _ => false
  end.

(** The records the processing goes through without a fault: values other
    than null and undefined that, when their [name] is a non-empty string,
    are records [enrich] accepts. *)
Definition processable (playground : jsvalue number) : bool :=
  match has_name playground with
  | Ok true => enrichable playground
  | Ok false => true
  | Throw _ => false
  end.

(** The props the grid passes to each card. *)
Definition card_props (playground : jsvalue number) : jsvalue number :=
  VObject {[ lit "playground" := playground ]}.

End Frontmatter.
End IndexPage.

(** ** [src/components/PlaygroundCard.astro]: the frontmatter of the card *)

Module PlaygroundCard.
Section Frontmatter.
Context {number : Type} `{!Number number}.

Definition missing_slug : js_error :=
  Error (lit "Invalid playground data: missing slug").

(** [const { playground } = Astro.props] and the guard that follows it. *)
Definition frontmatter (props : jsvalue number) : result (jsvalue number) :=
  playground ← get props (lit "playground");
  if negb (truthy playground) then Throw missing_slug
  else
    slug ← get playground (lit "slug");
    if negb (truthy slug) then Throw missing_slug
    else Ok playground.

End Frontmatter.
End PlaygroundCard.

(** ** [src/pages/playground/[slug].astro]: the detail page *)

Module DetailPage.
Section Frontmatter.
Context {number : Type} `{!Number number} `{!CaseMapping}.

Definition createSlug (name : jsstring) : jsstring :=
  strip_edge_hyphens (replace_non_alnum (trim (toLowerCase name))).

(** One entry of the array [getStaticPaths] returns. *)
Record static_path := {
  params_slug : jsstring;
  props : jsvalue number
}.

Definition has_name (playground : jsvalue number) : result bool :=
  name ← get playground (lit "name");
  Ok (truthy name && is_string name).

(** The callback of [map]: [null] for an empty slug. *)
Definition to_path (playground : jsvalue number) : result (option static_path) :=
  name ← get playground (lit "name");
  name ← this_string name;
  let slug := createSlug name in
  if bool_decide (slug = []) then Ok None
  else Ok (Some {| params_slug := slug;
                   props := VObject {[ lit "playground" := playground ]} |}).

(** [filter(Boolean)] drops the [null] entries. *)
Definition getStaticPaths (playgrounds : list (jsvalue number))
  : result (list static_path) :=
  named ← array_filter has_name playgrounds;
  mapped ← array_map to_path named;
  Ok (omap (M:=list) id mapped).

Definition invalid_data : js_error := Error (lit "Invalid playground data").

(** [const { playground } = Astro.props] and the guard that follows it. *)
Definition frontmatter (page_props : jsvalue number) : result (jsvalue number) :=
  playground ← get page_props (lit "playground");
  if negb (truthy playground) then Throw invalid_data
  else
    name ← get playground (lit "name");
    if negb (truthy name) then Throw invalid_data
    else Ok playground.

End Frontmatter.
End DetailPage.

(** ** Sample data *)

Module Samples.

Definition str (s : string) : jsvalue Z := VString (lit s).

Definition obj (fields : list (string * jsvalue Z)) : jsvalue Z :=
  VObject (list_to_map (prod_map lit id <$> fields)).

Definition hyde_park : jsvalue Z :=
  obj [("name", str "Hyde Park"); ("postal_code", str "W2 2UH");
       ("rating", VNumber 3%Z)].

Definition coram_fields : jsvalue Z :=
  obj [("name", str "Coram's Fields"); ("postal_code", str "WC1N 1DN");
       ("description", str "Sand pit, SWINGS and slides");
       ("rating", VNumber 5%Z)].

(** A record whose name has no letter or digit: its slug is empty. *)
Definition unnamed : jsvalue Z := obj [("name", str "!!!")].

(** A record without a name. *)
Definition nameless : jsvalue Z := obj [("postal_code", str "N1 9GU")].

(** A record that comes with a [slug] field of its own. *)
Definition with_own_slug : jsvalue Z :=
  obj [("name", str "A B"); ("slug", str "x")].

(** A record whose postal code is a number. *)
Definition numeric_postcode : jsvalue Z :=
  obj [("name", str "Mile End"); ("postal_code", VNumber 12345%Z)].

(** A record whose description is an object with a [toString] field. *)
Definition object_description : jsvalue Z :=
  obj [("name", str "Mile End");
       ("description", obj [("toString", VNumber 1%Z)])].

(** The two records as the index page processes them. *)
Definition hyde_park_processed : jsvalue Z :=
  obj [("name", str "Hyde Park"); ("postal_code", str "W2 2UH");
       ("rating", VNumber 3%Z); ("slug", str "hyde-park");
       ("area", str "West London"); ("amenities", VArray [])].

Definition coram_fields_processed : jsvalue Z :=
  obj [("name", str "Coram's Fields"); ("postal_code", str "WC1N 1DN");
       ("description", str "Sand pit, SWINGS and slides");
       ("rating", VNumber 5%Z); ("slug", str "coram-s-fields");
       ("area", str "West London");
       ("amenities", VArray [str "Swings"; str "Slides"; str "Sandbox"])].

End Samples.

(** ** The enrichment engine

    The engine the specification describes (SourceClient, RetryPolicy,
    Cache, Merger, Orchestrator) has no code among the sources; this module
    models it from the specification's sections 3 and 4. Waiting (backoff,
    jitter, rate limiting) changes none of the modelled state and is left
    out, as are the worker pool (records are processed in input order) and
    the circuit breaker. *)

Module Engine.

(** Modelled from the spec: the id of a source (section 3), a name such as
    Places or ReviewSite. *)
Definition source_id := string.

(** Modelled from the spec: RawRecord, the input identity
    [{name, location, postcode}] (section 3). *)
Record RawRecord := {
  name : string;
  location : string;
  postcode : string
}.

(** Modelled from the spec: the failure kinds of section 3, Transient
    (NetworkError, RateLimited) or Permanent (AuthError, NotFound,
    ParseError). *)
Inductive FailureKind :=
| NetworkError | RateLimited | AuthError | NotFound | ParseError.

Definition is_transient (k : FailureKind) : bool :=
  match k with
  | NetworkError | RateLimited => true
  | AuthError | NotFound | ParseError => false
  end.

(** Modelled from the spec: Failure,
    [{source_id, kind, message, attempt_count}] (section 3). *)
Record Failure := {
  f_source : source_id;
  f_kind : FailureKind;
  f_message : string;
  f_attempt_count : nat
}.

(** Modelled from the spec: PartialEnrichment, the canonical fields one
    source reported, each of them optional, tagged with the source and the
    retrieval time (sections 3 and 4.1). *)
Record PartialEnrichment := {
  pe_source : source_id;
  pe_retrieved_at : Z;
  pe_rating : option Q;
  pe_phone : option string;
  pe_website : option string;
  pe_coordinates : option (Q * Q);
  pe_amenities : list string;
  pe_accessibility : list string;
  pe_review_count : option N
}.

(** Modelled from the spec: the provenance of a scalar field, every source
    that reported it plus the chosen winner (section 4.5). *)
Record provenance := {
  reporters : gset source_id;
  winner : source_id
}.

Section Merger.
Context {A : Type}.
Variable priority : list source_id.
Variable field : PartialEnrichment -> option A.

(** Modelled from the spec: the value source [s] reported for the field,
    if any (section 4.5). A source that reports the field more than once
    counts with its first report; the specification leaves this open. *)
Definition reported_by (s : source_id) (pes : list PartialEnrichment)
  : option A :=
  head (omap (fun pe => if decide (pe_source pe = s) then field pe else None)
             pes).

(** Modelled from the spec: the sources that reported the field
    (section 4.5). *)
Definition reporters_of (pes : list PartialEnrichment) : gset source_id :=
  list_to_set (pe_source <$> filter (fun pe => is_Some (field pe)) pes).

(** Modelled from the spec: scalar fields are resolved by the fixed
    source-priority order, the first priority source that reported the
    field wins (section 4.5). *)
Fixpoint first_reporter (order : list source_id) (pes : list PartialEnrichment)
  : option (source_id * A) :=
  match order with
  | [] => None
  | s :: order' =>
      match reported_by s pes with
      | Some v => Some (s, v)
      | None => first_reporter order' pes
      end
  end.

Definition resolve_scalar (pes : list PartialEnrichment)
  : option (A * provenance) :=
  '(s, v) ← first_reporter priority pes;
  Some (v, {| reporters := reporters_of pes; winner := s |}).

End Merger.

(** Modelled from the spec: list-valued fields are the union of the
    contributions with duplicate removal, each element with the sources
    that contributed it (section 4.5). *)
Definition merge_list (field : PartialEnrichment -> list string)
  (pes : list PartialEnrichment) : gmap string (gset source_id) :=
  foldr (fun pe acc =>
           foldr (fun x acc =>
                    <[x := {[pe_source pe]} ∪ default ∅ (acc !! x)]> acc)
                 acc (field pe))
        ∅ pes.

(** Modelled from the spec: a count takes the maximum reported value and
    is never summed (section 4.5). *)
Definition merge_count (field : PartialEnrichment -> option N)
  (pes : list PartialEnrichment) : option N :=
  foldr (fun pe acc =>
           match field pe, acc with
           | Some n, Some m => Some (N.max n m)
           | Some n, None => Some n
           | None, _ => acc
           end)
        None pes.

(** Modelled from the spec: the terminal states of a record
    (section 4.6). *)
Inductive Status := Done | PartialFailure | Failed.

(** Modelled from the spec: EnrichedRecord, the original fields, the merged
    fields with their provenance and the run metadata
    [{status, failures, last_updated}] (section 3). The specification does
    not say where [last_updated] comes from; it is the latest retrieval
    time of the merged contributions. *)
Record EnrichedRecord := {
  er_raw : RawRecord;
  er_rating : option (Q * provenance);
  er_phone : option (string * provenance);
  er_website : option (string * provenance);
  er_coordinates : option (Q * Q * provenance);
  er_amenities : gmap string (gset source_id);
  er_accessibility : gmap string (gset source_id);
  er_review_count : option N;
  er_status : Status;
  er_failures : list Failure;
  er_last_updated : option Z
}.

(** Modelled from the spec: what one source yields for one record, a
    PartialEnrichment or a Failure (section 4.1). *)
Inductive outcome :=
| Success (pe : PartialEnrichment)
| Failure_ (f : Failure).

Definition successes (os : list outcome) : list PartialEnrichment :=
  omap (fun o => match o with Success pe => Some pe | Failure_ _ => None end) os.

Definition failures (os : list outcome) : list Failure :=
  omap (fun o => match o with Success _ => None | Failure_ f => Some f end) os.

(** Modelled from the spec: the outcome classification of section 4.6. *)
Definition classify (os : list outcome) : Status :=
  match failures os, successes os with
  | [], _ => Done
  | _ :: _, [] => Failed
  | _ :: _, _ :: _ => PartialFailure
  end.

(** The latest retrieval time among the contributions. *)
Definition latest (pes : list PartialEnrichment) : option Z :=
  foldr (fun pe acc =>
           match acc with
           | Some t => Some (Z.max (pe_retrieved_at pe) t)
           | None => Some (pe_retrieved_at pe)
           end)
        None pes.

(** Modelled from the spec: Merging runs only over the successes
    (section 4.6). *)
Definition merge (priority : list source_id) (raw : RawRecord)
  (os : list outcome) : EnrichedRecord :=
  let pes := successes os in
  {| er_raw := raw;
     er_rating := resolve_scalar priority pe_rating pes;
     er_phone := resolve_scalar priority pe_phone pes;
     er_website := resolve_scalar priority pe_website pes;
     er_coordinates := resolve_scalar priority pe_coordinates pes;
     er_amenities := merge_list pe_amenities pes;
     er_accessibility := merge_list pe_accessibility pes;
     er_review_count := merge_count pe_review_count pes;
     er_status := classify os;
     er_failures := failures os;
     er_last_updated := latest pes |}.

(** Modelled from the spec: a SourceClient's [fetch] yields a
    PartialEnrichment or fails with one of the failure kinds (section 4.1).
    A source may answer differently each time it is called: its answer
    depends on the record and on the number of network calls issued so
    far. *)
Inductive fetch_result :=
| Fetched (pe : PartialEnrichment)
| Fails (kind : FailureKind) (message : string).

Definition SourceClient := nat -> RawRecord -> fetch_result.

(** Modelled from the spec: SourceFingerprint, a deterministic value
    derived from the record identity and the source id (section 3). *)
Definition SourceFingerprint := (string * string * string * source_id)%type.

Definition fingerprint (record : RawRecord) (id : source_id)
  : SourceFingerprint :=
  (name record, location record, postcode record, id).

(** Modelled from the spec: a cache slot holds a successful
    PartialEnrichment or a NotFound marker, with its time-to-live
    (section 4.4). *)
Record cache_entry := {
  ce_outcome : outcome;
  ce_expires : Z
}.

(** Modelled from the spec: the state a run threads through, the cache
    (section 4.4) and the log of the network calls issued, latest first. *)
Record engine_state := {
  cache : gmap SourceFingerprint cache_entry;
  calls : list (source_id * RawRecord)
}.

(** Modelled from the spec: the configuration passed to the Orchestrator,
    the maximum attempt count, the time-to-live and the source-priority
    order (sections 4.3 to 4.5 and 9). *)
Record Config := {
  max_attempts : nat;
  ttl : Z;
  priority_order : list source_id
}.

(** Modelled from the spec: the defaults it names, 3 attempts and 30 days
    (in seconds). *)
Definition default_config (priority : list source_id) : Config :=
  {| max_attempts := 3; ttl := 2592000; priority_order := priority |}.

(** Modelled from the spec: one network call to a source (section 4.1);
    the call is logged. *)
Definition call_source (src : source_id * SourceClient) (record : RawRecord)
  (st : engine_state) : fetch_result * engine_state :=
  (snd src (length (calls st)) record,
   {| cache := cache st; calls := (fst src, record) :: calls st |}).

(** Modelled from the spec: RetryPolicy (section 4.3). On a Transient
    failure the call is retried up to the maximum attempt count, and on
    exhaustion the last Failure is returned; a Permanent failure is
    returned at once. [attempt] numbers the call being made, [retries] is
    the number of attempts left after it. *)
Fixpoint retry_loop (retries attempt : nat) (src : source_id * SourceClient)
  (record : RawRecord) (st : engine_state) : outcome * engine_state :=
  let '(r, st') := call_source src record st in
  match r with
  | Fetched pe => (Success pe, st')
  | Fails kind message =>
      let failure := {| f_source := fst src; f_kind := kind;
                        f_message := message; f_attempt_count := attempt |} in
      if is_transient kind then
        match retries with
        | O => (Failure_ failure, st')
        | S retries' => retry_loop retries' (S attempt) src record st'
        end
      else (Failure_ failure, st')
  end.

(** Modelled from the spec: the wrapper makes the first attempt and allows
    [max_attempts] attempts in all (section 4.3). *)
Definition with_retry (cfg : Config) (src : source_id * SourceClient)
  (record : RawRecord) (st : engine_state) : outcome * engine_state :=
  retry_loop (max_attempts cfg - 1) 1 src record st.

(** Modelled from the spec: successful PartialEnrichments and NotFound
    markers are both cached (section 4.4). *)
Definition cacheable (o : outcome) : bool :=
  match o with
  | Success _ => true
  | Failure_ f => match f_kind f with NotFound => true | _ => false end
  end.

(** Modelled from the spec: a hit is a slot that holds an entry whose
    time-to-live has not run out (section 4.4). *)
Definition cache_lookup (now : Z) (fp : SourceFingerprint) (st : engine_state)
  : option outcome :=
  e ← cache st !! fp;
  if (now <? ce_expires e)%Z then Some (ce_outcome e) else None.

(** Modelled from the spec: populating a slot, with the configured
    time-to-live (section 4.4). *)
Definition cache_put (cfg : Config) (now : Z) (fp : SourceFingerprint)
  (o : outcome) (st : engine_state) : engine_state :=
  {| cache := <[fp := {| ce_outcome := o; ce_expires := (now + ttl cfg)%Z |}]>
                (cache st);
     calls := calls st |}.

(** Modelled from the spec: forced refresh, independent of the
    time-to-live (section 4.4). *)
Definition invalidate (fp : SourceFingerprint) (st : engine_state)
  : engine_state :=
  {| cache := delete fp (cache st); calls := calls st |}.

(** Modelled from the spec: get-or-populate (section 4.4). The lookup
    precedes the source call and a hit short-circuits it. *)
Definition fetch_cached (cfg : Config) (now : Z)
  (src : source_id * SourceClient) (record : RawRecord) (st : engine_state)
  : outcome * engine_state :=
  let fp := fingerprint record (fst src) in
  match cache_lookup now fp st with
  | Some o => (o, st)
  | None =>
      let '(o, st') := with_retry cfg src record st in
      (o, if cacheable o then cache_put cfg now fp o st' else st')
  end.

(** Modelled from the spec: Fetching issues one call per configured source
    (section 4.6). *)
Fixpoint fetch_all (cfg : Config) (now : Z)
  (sources : list (source_id * SourceClient)) (record : RawRecord)
  (st : engine_state) : list outcome * engine_state :=
  match sources with
  | [] => ([], st)
  | src :: sources' =>
      let '(o, st1) := fetch_cached cfg now src record st in
      let '(os, st2) := fetch_all cfg now sources' record st1 in
      (o :: os, st2)
  end.

(** Modelled from the spec: the Orchestrator emits one EnrichedRecord per
    input record, in input order (sections 4.6 and 6). *)
Fixpoint run (cfg : Config) (now : Z)
  (sources : list (source_id * SourceClient)) (records : list RawRecord)
  (st : engine_state) : list EnrichedRecord * engine_state :=
  match records with
  | [] => ([], st)
  | record :: records' =>
      let '(os, st1) := fetch_all cfg now sources record st in
      let '(ers, st2) := run cfg now sources records' st1 in
      (merge (priority_order cfg) record os :: ers, st2)
  end.

(** A source client that fails with a Transient failure whenever it is
    called for [record]. *)
Definition always_transient (client : SourceClient) (record : RawRecord)
  : Prop :=
  forall n, exists kind message,
    client n record = Fails kind message /\ is_transient kind = true.

(** A warm cache: every record/source pair of the run has a live entry. *)
Definition warm (now : Z) (ids : list source_id) (records : list RawRecord)
  (st : engine_state) : Prop :=
  forall record id, record ∈ records -> id ∈ ids ->
    is_Some (cache_lookup now (fingerprint record id) st).

(** The reports of the specification's merge example. *)
Definition no_report (id : source_id) : PartialEnrichment :=
  {| pe_source := id; pe_retrieved_at := 0; pe_rating := None;
     pe_phone := None; pe_website := None; pe_coordinates := None;
     pe_amenities := []; pe_accessibility := []; pe_review_count := None |}.

Definition rated (id : source_id) (rating : Q) : PartialEnrichment :=
  {| pe_source := id; pe_retrieved_at := 0; pe_rating := Some rating;
     pe_phone := None; pe_website := None; pe_coordinates := None;
     pe_amenities := []; pe_accessibility := []; pe_review_count := None |}.

Definition victoria_park : RawRecord :=
  {| name := "Victoria Park"; location := "Hackney"; postcode := "E9 7DD" |}.

(** A source that is out of reach, one that does not know the record and
    one that answers. *)
Definition unreachable : SourceClient :=
  fun _ _ => Fails NetworkError "timed out".

Definition unknown_place : SourceClient :=
  fun _ _ => Fails NotFound "no such place".

Definition places_client : SourceClient :=
  fun _ _ => Fetched (rated "Places" 4.5).

(** A first run from an empty cache, with Places answering and the council
    site not knowing the record. *)
Definition first_run : list EnrichedRecord * engine_state :=
  run (default_config ["Places"; "Council"]) 0
    [("Places", places_client); ("Council", unknown_place)]
    [victoria_park] {| cache := ∅; calls := [] |}.

End Engine.

(** ** More of the JavaScript library, as the client scripts use it *)

Module JSLib.
Section Library.
Context {number : Type} `{!Number number}.

Definition newline : code_unit := 10%N.

(** The string [Array.prototype.join] makes of an element. *)
Definition element_string (e : jsvalue number) : result jsstring :=
  match e with
  | VUndefined | VNull => Ok []
  | _ => to_string e
  end.

Definition array_join (sep : jsstring) (elems : list (jsvalue number))
  : result jsstring :=
  strings ← array_map element_string elems;
  Ok (join sep strings).

(** [v?.join(sep)]: undefined on null and undefined, a [TypeError] on a
    value that has no [join] method. *)
Definition optional_join (sep : jsstring) (v : jsvalue number)
  : result (jsvalue number) :=
  match v with
  | VUndefined | VNull => Ok VUndefined
  | VArray elems => joined ← array_join sep elems; Ok (VString joined)
  | _ => Throw TypeError
  end.

(** [a || b] *)
Definition or_else (a b : jsvalue number) : jsvalue number :=
  if truthy a then a else b.

(** [v === s] for a string [s] *)
Definition equals_string (v : jsvalue number) (s : jsstring) : bool :=
  match v with
  | VString t => bool_decide (t = s)
  | _ => false
  end.

(** [v.includes(s)] for a string [s]: the substring test on a string, the
    membership test on an array, a [TypeError] on any other value. *)
Definition value_includes (v : jsvalue number) (s : jsstring) : result bool :=
  match v with
  | VString t => Ok (includes t s)
  | VArray elems => Ok (existsb (fun e => equals_string e s) elems)
  | _ => Throw TypeError
  end.

(** [v && v.includes(s)], as a condition *)
Definition and_includes (v : jsvalue number) (s : jsstring) : result bool :=
  if truthy v then value_includes v s else Ok false.

End Library.

(** [Array.prototype.some] with a callback that may throw: the traversal
    stops at the first element the callback accepts. *)
Fixpoint array_some {A} (f : A -> result bool) (l : list A) : result bool :=
  match l with
  | [] => Ok false
  | x :: l' => b ← f x; if (b : bool) then Ok true else array_some f l'
  end.

(** [s.split(sep)] for a separator of one code unit. *)
Fixpoint split (sep : code_unit) (s : jsstring) : list jsstring :=
  match s with
  | [] => [[]]
  | c :: s' =>
      if (c =? sep)%N then [] :: split sep s'
      else match split sep s' with
           | piece :: pieces => (c :: piece) :: pieces
           | [] => [[c]]
           end
  end.

End JSLib.

(** ** The index page: its client script *)

Module IndexScript.
Import JSLib.
Section Script.
Context {number : Type} `{!Number number} `{!CaseMapping}.

(** One line of the template literal of [searchableText]: the value
    converted to a string, behind a line break and twelve spaces. *)
Definition line (v : jsvalue number) : result jsstring :=
  s ← to_string v;
  Ok (newline :: replicate 12 space ++ s).

(** The template literal of [searchableText], before [toLowerCase]: each
    field on a line of its own, evaluated and converted in turn, and ten
    spaces on the last line. *)
Definition searchableSource (playground : jsvalue number) : result jsstring :=
  name ← get playground (lit "name");
  name ← line name;
  description ← get playground (lit "description");
  description ← line (or_else description (VString []));
  street ← get playground (lit "street");
  street ← line (or_else street (VString []));
  area ← get playground (lit "area");
  area ← line (or_else area (VString []));
  amenities ← get playground (lit "amenities");
  joined ← optional_join [space] amenities;
  amenities ← line (or_else joined (VString []));
  Ok (name ++ description ++ street ++ area ++ amenities
      ++ newline :: replicate 10 space).

Definition searchableText (playground : jsvalue number) : result jsstring :=
  source ← searchableSource playground;
  Ok (toLowerCase source).

(** The callback of the search filter. *)
Definition found (searchTerm : jsstring) (playground : jsvalue number)
  : result bool :=
  text ← searchableText playground;
  Ok (includes text (toLowerCase searchTerm)).

(** The callback of [filters.some]: the area, then the age range, then the
    amenities. *)
Definition matches_filter (playground : jsvalue number) (filter : jsstring)
  : result bool :=
  area ← get playground (lit "area");
  if equals_string area filter then Ok true
  else
    age_range ← get playground (lit "age_range");
    in_age_range ← and_includes age_range filter;
    if (in_age_range : bool) then Ok true
    else
      amenities ← get playground (lit "amenities");
      in_amenities ← and_includes amenities filter;
      if (in_amenities : bool) then Ok true else Ok false.

Definition filterPlaygrounds (processedPlaygrounds : list (jsvalue number))
  (filters : list jsstring) (searchTerm : jsstring)
  : result (list (jsvalue number)) :=
  filtered ←
    (if bool_decide (searchTerm = []) then Ok processedPlaygrounds
     else array_filter (found searchTerm) processedPlaygrounds);
  if bool_decide (filters = []) then Ok filtered
  else array_filter (fun playground =>
                       array_some (matches_filter playground) filters)
                    filtered.

(** Whether [filterPlaygrounds] hands back the array [processedPlaygrounds]
    itself rather than a new array: neither filter has run. *)
Definition returns_same_array (filters : list jsstring) (searchTerm : jsstring)
  : bool :=
  bool_decide (searchTerm = []) && bool_decide (filters = []).

(** The records the script can filter without a fault: values other than
    null and undefined whose [amenities] is absent, null or an array and
    whose [age_range] is absent, falsy, a string or an array. *)
Definition listable (v : jsvalue number) : bool :=
  match v with
  | VUndefined | VNull | VArray _ => true
  | _ => false
  end.

Definition includable (v : jsvalue number) : bool :=
  negb (truthy v) || match v with
                     | VString _ | VArray _ => true
                     | _ => false
                     end.

Definition filterable (playground : jsvalue number) : bool :=
  match get playground (lit "amenities"), get playground (lit "age_range") with
  | Ok amenities, Ok age_range =>
      listable amenities && includable age_range
  | _, _ => false
  end.

(** The records whose search text can be built, that is, on which the
    template literal of [searchableText] is evaluated without a fault:
    [ToString] converts the [name] and, where they are truthy, the
    [description], [street] and [area], and [amenities] is absent, null
    or an array whose elements [ToString] converts. *)
Definition searchable (playground : jsvalue number) : bool :=
  match get playground (lit "name"), get playground (lit "description"),
        get playground (lit "street"), get playground (lit "area"),
        get playground (lit "amenities") with
  | Ok name, Ok description, Ok street, Ok area, Ok amenities =>
      printable name
      && printable (or_else description (VString []))
      && printable (or_else street (VString []))
      && printable (or_else area (VString []))
      && match amenities with
         | VUndefined | VNull => true
         | VArray elems => forallb printable elems
         | _ => false
         end
  | _, _, _, _, _ => false
  end.

(** Whether [filter] is the area, in the age range or among the amenities
    of a record. *)
Definition matches (playground : jsvalue number) (filter : jsstring) : bool :=
  passes (matches_filter playground) filter.

(** The area names [determineArea] can return. *)
Definition produced_areas : list jsstring :=
  [lit "Unknown"; lit "North London"; lit "South London"; lit "East London";
   lit "West London"; lit "Other London"].

(** The amenity names [extractAmenities] can return. *)
Definition amenity_names : list jsstring := snd <$> IndexPage.amenityKeywords.

(** The records that come without an age range. *)
Definition no_age_range (playground : jsvalue number) : bool :=
  match get playground (lit "age_range") with
  | Ok age_range => negb (truthy age_range)
  | Throw _ => false
  end.

(** What the two filters keep. *)
Definition kept_by_search (searchTerm : jsstring) (playground : jsvalue number)
  : bool :=
  bool_decide (searchTerm = []) || passes (found searchTerm) playground.

Definition kept_by_filters (filters : list jsstring)
  (playground : jsvalue number) : bool :=
  bool_decide (filters = []) || existsb (matches playground) filters.

End Script.
End IndexScript.

(** ** The filter bar: its frontmatter and its client script *)

Module FilterBar.
Import JSLib.


Definition areas : list jsstring :=
  [lit "North London"; lit "South London"; lit "East London";
   lit "West London"; lit "Central London"].

Definition ageRanges : list jsstring :=
  [lit "All Ages"; lit "Toddlers"; lit "Pre-school"; lit "School Age";
   lit "Teenagers"].

Definition amenities : list jsstring :=
  [lit "Swings"; lit "Slides"; lit "Climbing Frame"; lit "Sandbox";
   lit "Water Play"; lit "Seating Area"; lit "Toilets"; lit "Parking"].

(** The query of the page's URL, as [URLSearchParams] reads and writes it:
    the list of its name/value pairs. Serialising the pairs into the URL
    and parsing them back gives the same pairs. *)
Definition search_params := list (jsstring * jsstring).

(** [params.get(name)]: the first value of that name, or null. *)
Fixpoint params_get (name : jsstring) (params : search_params)
  : option jsstring :=
  match params with
  | [] => None
  | (n, v) :: params' =>
      if bool_decide (n = name) then Some v else params_get name params'
  end.

Record url_filters := {
  filters : list jsstring;
  sort : jsstring
}.

Definition getFiltersFromURL (search : search_params) : url_filters :=
  {| filters := match params_get (lit "filters") search with
                | Some s => split comma s
                | None => []
                end;
     sort := match params_get (lit "sort") search with
             | Some s => if bool_decide (s = []) then lit "rating-desc" else s
             | None => lit "rating-desc"
             end |}.

(** [updateURL]: the query it writes for the active filters and the value
    of the sort select. *)
Definition updateURL (activeFilters : list jsstring) (sortValue : jsstring)
  : search_params :=
  (if bool_decide (activeFilters = []) then []
   else [(lit "filters", join [comma] activeFilters)])
  ++ (if bool_decide (sortValue = lit "rating-desc") then []
      else [(lit "sort", sortValue)]).

(** Where [loadSavedPreferences] takes the preferences from: the test
    [filters.length || sort] on what [getFiltersFromURL] returns. *)
Inductive preference_source :=
| FromURL (preferences : url_filters)
| FromLocalStorage.

Definition preference_source_of (search : search_params) : preference_source :=
  let preferences := getFiltersFromURL search in
  if negb (bool_decide (filters preferences = []))
     || negb (bool_decide (sort preferences = []))
  then FromURL preferences
  else FromLocalStorage.

End FilterBar.

(** ** The index page script: sorting *)

(** [String.prototype.localeCompare] orders strings by the collation of
    the browser's locale; the model takes the sign of its result as an
    interface. *)
Class Collation := {
  localeCompare : jsstring -> jsstring -> comparison
}.

(** The order of the code units: an instance of the interface, used to run
    the definitions. *)
Fixpoint code_unit_compare (s t : jsstring) : comparison :=
  match s, t with
  | [], [] => Eq
  | [], _ :: _ => Lt
  | _ :: _, [] => Gt
  | c :: s', d :: t' =>
      match N.compare c d with
      | Eq => code_unit_compare s' t'
      | o => o
      end
  end.

Definition code_unit_collation : Collation :=
  {| localeCompare := code_unit_compare |}.

Module SortHandler.
Section Handler.
Context {number : Type} `{!Number number} `{!CaseMapping} `{!Collation}.







End Handler.
End SortHandler.

(** ** The templates: the rating badge and the reviews section *)

(** [Math.round] of a number that JSON can denote is an integer. *)
Class Rounding (number : Type) := {
  math_round : number -> Z
}.

Definition Z_rounding : Rounding Z := {| math_round := fun z => z |}.

Module Templates.
Section Expressions.
Context {number : Type} `{!Number number} `{!Rounding number}.

(** [typeof v === 'number'] *)
Definition is_number (v : jsvalue number) : bool :=
  match v with
  | VNumber _ => true
  | _ => false
  end.

(** [{playground.rating && (... playground.rating.toFixed(1) ...)}], the
    rating badge of the card and of the detail page: the number it shows,
    if any. A truthy rating that is not a number has no [toFixed]. *)
Definition rating_badge (playground : jsvalue number)
  : result (option number) :=
  rating ← get playground (lit "rating");
  if truthy rating then
    match rating with
    | VNumber n => Ok (Some n)
    | _ => Throw TypeError
    end
  else Ok None.

(** The card up to its rating badge: the guard of the frontmatter, then
    the badge. *)
Definition card_rating_badge (props : jsvalue number)
  : result (option number) :=
  playground ← PlaygroundCard.frontmatter props;
  rating_badge playground.

(** The exceptions of the detail page's template. *)
Inductive fault := TypeErrorFault | RangeErrorFault.

Inductive rendered (A : Type) : Type :=
| Shown (a : A)
| Faulted (e : fault).

Arguments Shown {A} a.
Arguments Faulted {A} e.

(** [c.repeat(count)]: the number of copies, a [RangeError] below zero. *)
Definition repeat_count (count : Z) : rendered nat :=
  if (count <? 0)%Z then Faulted RangeErrorFault else Shown (Z.to_nat count).

(** The stars of a rating: the full and the empty ones. *)
Record stars := {
  full : nat;
  empty : nat
}.

(** The reviews section of the detail page, shown when [reviews] is
    truthy: [rating.toFixed(1)], then the full stars,
    [Math.round(rating)] of them, then the empty ones,
    [5 - Math.round(rating)]. *)
Definition reviews_section (playground : jsvalue number)
  : rendered (option (number * stars)) :=
  match get playground (lit "reviews"), get playground (lit "rating") with
  | Ok reviews, Ok rating =>
      if truthy reviews then
        match rating with
        | VNumber r =>
            match repeat_count (math_round r) with
            | Shown f =>
                match repeat_count (5 - math_round r) with
                | Shown e => Shown (Some (r, {| full := f; empty := e |}))
                | Faulted e => Faulted e
                end
            | Faulted e => Faulted e
            end
        | _ => Faulted TypeErrorFault
        end
      else Shown None
  | _, _ => Faulted TypeErrorFault
  end.

End Expressions.

Arguments Shown {A} a.
Arguments Faulted {A} e.

End Templates.

(** * Properties *)

(** ** Code units and the string helpers *)

Module JSFacts.
#[local] Open Scope N_scope.

Ltac char_cases :=
  repeat match goal with
  | |- context [(?a <=? ?b)%N] => destruct (N.leb_spec a b); simpl; try lia
  | |- context [(?a <? ?b)%N] => destruct (N.ltb_spec a b); simpl; try lia
  | |- context [(?a =? ?b)%N] => destruct (N.eqb_spec a b); simpl; try lia
  | H : context [(?a <=? ?b)%N] |- _ =>
      destruct (N.leb_spec a b); simpl in H; try lia
  | H : context [(?a =? ?b)%N] |- _ =>
      destruct (N.eqb_spec a b); simpl in H; try lia
  end; try done.

Lemma alnum_not_whitespace c : is_alnum c = true -> is_whitespace c = false.
Proof.
  unfold is_alnum, is_whitespace, is_lower, is_digit. intros H. char_cases.
Qed.

Lemma alnum_is_ascii c : is_alnum c = true -> is_ascii c = true.
Proof.
  unfold is_alnum, is_ascii, is_lower, is_digit. intros H. char_cases.
Qed.

Lemma alnum_lower c : is_alnum c = true -> ascii_lower c = c.
Proof.
  unfold is_alnum, ascii_lower, is_upper, is_lower, is_digit. intros H.
  char_cases.
Qed.

Lemma hyphen_not_alnum : is_alnum hyphen = false.
Proof. reflexivity. Qed.

Lemma slug_unit_is_ascii s :
  Forall slug_unit s -> forallb is_ascii s = true.
Proof.
  induction 1 as [|c s [Hc| ->] _ IH]; simpl; [done| |done].
  by rewrite (alnum_is_ascii c Hc).
Qed.

Lemma slug_unit_lower s : Forall slug_unit s -> map ascii_lower s = s.
Proof.
  induction 1 as [|c s [Hc| ->] _ IH]; simpl; [done| |by rewrite IH].
  by rewrite (alnum_lower c Hc), IH.
Qed.

Lemma hd_alnum_or_empty (s : jsstring) :
  Forall slug_unit s -> head s <> Some hyphen ->
  match s with [] => True | c :: _ => is_alnum c = true end.
Proof.
  destruct 1 as [|c s [Hc| ->] _]; simpl; [done|done|congruence].
Qed.

Lemma trimStart_id s :
  Forall slug_unit s -> head s <> Some hyphen -> trimStart s = s.
Proof.
  intros Hs Hh. pose proof (hd_alnum_or_empty s Hs Hh) as H.
  destruct s as [|c s]; [done|]. simpl.
  by rewrite (alnum_not_whitespace c H).
Qed.

Lemma head_rev (s : jsstring) : head (rev s) = last s.
Proof.
  induction s as [|c s IH] using rev_ind; [done|].
  by rewrite rev_app_distr, last_snoc.
Qed.

Lemma trim_id s :
  Forall slug_unit s -> head s <> Some hyphen -> last s <> Some hyphen ->
  trim s = s.
Proof.
  intros Hs Hh Hl. unfold trim, trimEnd. rewrite (trimStart_id s Hs Hh).
  rewrite trimStart_id, rev_involutive; [done| |by rewrite head_rev].
  by apply Forall_rev.
Qed.

(** [replace_runs] yields slug units, no two hyphens in a row, and no
    leading hyphen when the scan starts inside a run. *)
Lemma replace_runs_units b s : Forall slug_unit (replace_runs b s).
Proof.
  revert b. induction s as [|c s IH]; intros b; simpl; [constructor|].
  destruct (is_alnum c) eqn:Hc.
  - constructor; [by left | apply IH].
  - destruct b; [apply IH|]. constructor; [by right | apply IH].
Qed.

Lemma replace_runs_head s : head (replace_runs true s) <> Some hyphen.
Proof.
  induction s as [|c s IH]; simpl; [done|].
  destruct (is_alnum c) eqn:Hc; [|done].
  simpl. intros [= ->]. discriminate.
Qed.

Lemma replace_runs_single b s : single_hyphens (replace_runs b s).
Proof.
  revert b. induction s as [|c s IH]; intros b; simpl; [done|].
  destruct (is_alnum c) eqn:Hc.
  - specialize (IH false). destruct (replace_runs false s) eqn:E; [done|].
    split; [|done]. intros [-> _]. discriminate.
  - destruct b; [apply IH|].
    pose proof (replace_runs_head s) as Hh. specialize (IH true).
    destruct (replace_runs true s) eqn:E; [done|].
    split; [|done]. intros [_ ->]. by apply Hh.
Qed.

(** On a string of that shape the replacement changes nothing. *)
Lemma replace_runs_id b s :
  Forall slug_unit s -> single_hyphens s ->
  (b = true -> head s <> Some hyphen) -> replace_runs b s = s.
Proof.
  intros Hs. revert b. induction Hs as [|c s Hc Hs IH]; intros b Hsingle Hb;
    simpl; [done|].
  assert (single_hyphens s) as Hs'.
  { destruct s; [done|]. apply Hsingle. }
  destruct Hc as [Hc| ->].
  - rewrite Hc. f_equal. by apply IH.
  - rewrite hyphen_not_alnum. destruct b; [by destruct Hb|].
    f_equal. apply IH; [done|]. intros _. destruct s as [|d s]; [done|].
    simpl. intros [= ->]. by apply Hsingle.
Qed.

Lemma single_hyphens_snoc s :
  single_hyphens (s ++ [hyphen]) -> last s <> Some hyphen.
Proof.
  induction s as [|c s IH]; [done|]. intros H.
  destruct s as [|d s]; simpl in *.
  - intros [= ->]. by apply H.
  - apply IH, H.
Qed.

Lemma single_hyphens_app_l s t : single_hyphens (s ++ t) -> single_hyphens s.
Proof.
  induction s as [|c s IH]; [done|]. destruct s as [|d s]; [done|].
  simpl. intros [H1 H2]. split; [done|]. by apply IH.
Qed.

Lemma single_hyphens_tail c s : single_hyphens (c :: s) -> single_hyphens s.
Proof. destruct s; [done|]. by intros [_ ?]. Qed.

Lemma last_cases (s : jsstring) :
  s = [] \/ exists s' c, s = s' ++ [c].
Proof. destruct s using rev_ind; eauto. Qed.

(** What stripping the last hyphen leaves. *)
Lemma strip_last_hyphen_spec s :
  Forall slug_unit s -> single_hyphens s ->
  Forall slug_unit (strip_last_hyphen s)
  /\ single_hyphens (strip_last_hyphen s)
  /\ last (strip_last_hyphen s) <> Some hyphen
  /\ (head s <> Some hyphen -> head (strip_last_hyphen s) <> Some hyphen).
Proof.
  intros Hs Hsingle. unfold strip_last_hyphen.
  destruct (last_cases s) as [-> | (s' & c & ->)]; [done|].
  rewrite last_snoc. destruct (N.eqb_spec c hyphen) as [-> | Hne].
  - rewrite removelast_last. apply Forall_app in Hs as [Hs' _].
    repeat split; [done|by eapply single_hyphens_app_l|
                   by apply single_hyphens_snoc|].
    destruct s'; [done|]. done.
  - repeat split; [done|done| |done].
    rewrite last_snoc. congruence.
Qed.

Lemma strip_edge_hyphens_spec s :
  Forall slug_unit s -> single_hyphens s ->
  Forall slug_unit (strip_edge_hyphens s)
  /\ single_hyphens (strip_edge_hyphens s)
  /\ head (strip_edge_hyphens s) <> Some hyphen
  /\ last (strip_edge_hyphens s) <> Some hyphen.
Proof.
  intros Hs Hsingle. destruct s as [|c s]; [done|]. simpl.
  destruct (N.eqb_spec c hyphen) as [-> | Hne].
  - apply Forall_cons in Hs as [_ Hs].
    pose proof (single_hyphens_tail _ _ Hsingle) as Hs1.
    destruct (strip_last_hyphen_spec s Hs Hs1) as (H1 & H2 & H3 & H4).
    repeat split; [done|done| |done]. apply H4.
    destruct s as [|d s]; [done|]. simpl. intros [= ->]. by apply Hsingle.
  - destruct (strip_last_hyphen_spec _ Hs Hsingle) as (H1 & H2 & H3 & H4).
    repeat split; [done|done| |done]. apply H4. simpl. congruence.
Qed.

Lemma strip_last_hyphen_id s :
  last s <> Some hyphen -> strip_last_hyphen s = s.
Proof.
  unfold strip_last_hyphen. destruct (last s) as [c|]; [|done].
  destruct (N.eqb_spec c hyphen) as [-> | Hne]; done.
Qed.

Lemma strip_edge_hyphens_id s :
  head s <> Some hyphen -> last s <> Some hyphen -> strip_edge_hyphens s = s.
Proof.
  intros Hh Hl. destruct s as [|c s]; [done|]. simpl.
  destruct (N.eqb_spec c hyphen) as [-> | Hne]; [done|].
  by apply strip_last_hyphen_id.
Qed.

(** [includes] is the substring test. *)
Lemma startsWith_spec s p : startsWith s p = true <-> exists t, s = p ++ t.
Proof.
  revert s. induction p as [|c p IH]; intros s.
  - destruct s; simpl; split; eauto.
  - destruct s as [|d s]; simpl.
    + split; [done|]. by intros [t ?].
    + rewrite andb_true_iff, N.eqb_eq, IH. split.
      * intros [-> [t ->]]. eauto.
      * intros [t [= -> ->]]. eauto.
Qed.

Lemma startsWith_app_l s p q :
  startsWith s (p ++ q) = true -> startsWith s p = true.
Proof.
  rewrite !startsWith_spec. intros [t ->]. exists (q ++ t).
  by rewrite app_assoc.
Qed.

Lemma includes_spec s p :
  includes s p = true <-> exists pre post, s = pre ++ p ++ post.
Proof.
  induction s as [|c s IH]; cbn [includes].
  - rewrite orb_false_r, startsWith_spec. split.
    + intros [t ->]. by exists [], t.
    + intros (pre & post & H). symmetry in H.
      apply app_eq_nil in H as [-> H]. eauto.
  - rewrite orb_true_iff, startsWith_spec, IH. split.
    + intros [[t ->] | (pre & post & ->)].
      * by exists [], t.
      * by exists (c :: pre), post.
    + intros (pre & post & H). destruct pre as [|d pre]; simpl in H.
      * left. eauto.
      * injection H as -> ->. right. eauto.
Qed.

End JSFacts.

(** ** The slug *)

Section Slug.
Context `{!CaseMapping}.
Import JSFacts.

Lemma single_hyphens_lookup s i :
  single_hyphens s -> s !! i = Some hyphen -> s !! S i <> Some hyphen.
Proof.
  revert i. induction s as [|c s IH]; intros i Hs Hi; [done|].
  destruct i as [|i].
  - injection Hi as ->. destruct s as [|d s]; [done|]. simpl.
    intros [= ->]. by apply Hs.
  - apply (IH i); [|done]. by eapply single_hyphens_tail.
Qed.

Lemma slug_shape name :
  let slug := DetailPage.createSlug name in
  Forall slug_unit slug /\ single_hyphens slug
  /\ head slug <> Some hyphen /\ last slug <> Some hyphen.
Proof.
  apply strip_edge_hyphens_spec.
  - apply replace_runs_units.
  - apply replace_runs_single.
Qed.

Lemma createSlug_fixes_slugs s :
  Forall slug_unit s -> single_hyphens s ->
  head s <> Some hyphen -> last s <> Some hyphen ->
  DetailPage.createSlug s = s.
Proof.
  intros Hu Hs Hh Hl. unfold DetailPage.createSlug.
  rewrite toLowerCase_ascii by by apply slug_unit_is_ascii.
  rewrite slug_unit_lower by done.
  rewrite trim_id by done.
  unfold replace_non_alnum. rewrite replace_runs_id by done.
  by apply strip_edge_hyphens_id.
Qed.

(** C9. For every string, the slug [createSlug] returns is made of
    lowercase letters, digits and hyphens only; every hyphen in it is
    interior (neither the first nor the last code unit) and is not followed
    by another hyphen; and [createSlug] maps the slug to itself. *)
Theorem createSlug_shape_idempotent (name : jsstring) :
  let slug := DetailPage.createSlug name in
  (forall c, c ∈ slug ->
     is_lower c = true \/ is_digit c = true \/ c = hyphen)
  /\ (forall i, slug !! i = Some hyphen ->
        0 < i /\ S i < length slug /\ slug !! S i <> Some hyphen)
  /\ DetailPage.createSlug slug = slug.
Proof.
  intros slug. destruct (slug_shape name) as (Hu & Hs & Hh & Hl).
  fold slug in Hu, Hs, Hh, Hl. split; [|split].
  - intros c Hc. rewrite Forall_forall in Hu. destruct (Hu c Hc) as [Ha| ->].
    + unfold is_alnum in Ha. apply orb_true_iff in Ha. tauto.
    + tauto.
  - intros i Hi. split; [|split].
    + destruct i; [|lia]. destruct slug; [done|]. simpl in *. congruence.
    + pose proof (lookup_lt_Some _ _ _ Hi) as Hlt.
      destruct (decide (S i < length slug)) as [|Hge]; [done|].
      exfalso. apply Hl. rewrite last_lookup.
      by replace (pred (length slug)) with i by lia.
    + by apply single_hyphens_lookup.
  - by apply createSlug_fixes_slugs.
Qed.

(** The two copies of [createSlug] compute the same function. *)
Lemma createSlug_copies_agree (name : jsstring) :
  IndexPage.createSlug name = DetailPage.createSlug name.
Proof. reflexivity. Qed.

End Slug.

(** ** Areas and amenities *)

Section AreaAmenities.
Context {number : Type} `{!Number number} `{!CaseMapping}.
Import JSFacts.

(** C10. For every postal code string, [determineArea] returns one of the
    seven area names, and never 'Central London': a code that starts with
    'WC' or 'EC' is caught by the earlier 'W' and 'E' tests. *)
Theorem determineArea_never_central (postalCode : jsstring) :
  exists area,
    IndexPage.determineArea (VString postalCode : jsvalue number) = Ok area
    /\ area ∈ [lit "Unknown"; lit "North London"; lit "South London";
               lit "East London"; lit "West London"; lit "Central London";
               lit "Other London"]
    /\ area <> lit "Central London".
Proof.
  unfold IndexPage.determineArea. simpl.
  destruct (negb _); [eexists; split; [done|]; split;
                      [repeat constructor | discriminate]|].
  set (code := toUpperCase postalCode).
  destruct (startsWith code (lit "N")) eqn:HN;
    [eexists; split; [done|]; split; [repeat constructor | discriminate]|].
  destruct (startsWith code (lit "S")) eqn:HS;
    [eexists; split; [done|]; split; [repeat constructor | discriminate]|].
  destruct (startsWith code (lit "E")) eqn:HE;
    [eexists; split; [done|]; split; [repeat constructor | discriminate]|].
  destruct (startsWith code (lit "W")) eqn:HW;
    [eexists; split; [done|]; split; [repeat constructor | discriminate]|].
  assert (startsWith code (lit "WC") || startsWith code (lit "EC") = false)
    as ->.
  { apply orb_false_iff. split; apply not_true_is_false; intros Hp.
    - apply (startsWith_app_l code (lit "W") (lit "C")) in Hp. congruence.
    - apply (startsWith_app_l code (lit "E") (lit "C")) in Hp. congruence. }
  eexists; split; [done|]; split; [repeat constructor | discriminate].
Qed.

Lemma set_add_NoDup x s : NoDup s -> NoDup (IndexPage.set_add x s).
Proof.
  intros Hs. unfold IndexPage.set_add. case_bool_decide as Hx; [done|].
  apply NoDup_app. split; [done|]. split; [|apply NoDup_singleton].
  intros y Hy ->%list_elem_of_singleton. done.
Qed.

Lemma elem_of_set_add y x s : y ∈ IndexPage.set_add x s <-> y = x \/ y ∈ s.
Proof.
  unfold IndexPage.set_add. case_bool_decide as Hx.
  - split; [tauto|]. by intros [-> | ?].
  - rewrite elem_of_app, list_elem_of_singleton. tauto.
Qed.

Lemma collect_NoDup text (keywords : list (jsstring * jsstring)) acc :
  NoDup acc ->
  NoDup (fold_left
           (fun amenities '(keyword, amenity) =>
              if includes text keyword
              then IndexPage.set_add amenity amenities else amenities)
           keywords acc).
Proof.
  revert acc. induction keywords as [|[kw a] keywords IH]; intros acc Hacc;
    simpl; [done|].
  apply IH. destruct (includes text kw); [by apply set_add_NoDup|done].
Qed.

Lemma elem_of_collect text (keywords : list (jsstring * jsstring)) acc x :
  x ∈ fold_left
        (fun amenities '(keyword, amenity) =>
           if includes text keyword
           then IndexPage.set_add amenity amenities else amenities)
        keywords acc
  <-> x ∈ acc
      \/ exists keyword, (keyword, x) ∈ keywords /\ includes text keyword = true.
Proof.
  revert acc. induction keywords as [|[kw a] keywords IH]; intros acc; simpl.
  - split; [tauto|]. intros [?|(kw & Hkw & _)]; [done|]. by inversion Hkw.
  - rewrite IH. split.
    + intros [Hx | (kw' & Hkw' & Hi)].
      * destruct (includes text kw) eqn:Hi; [|tauto].
        apply elem_of_set_add in Hx as [-> | ?]; [|tauto].
        right. exists kw. split; [left|done].
      * right. exists kw'. split; [by right|done].
    + intros [Hx | (kw' & Hkw' & Hi)].
      * left. destruct (includes text kw); [|done].
        apply elem_of_set_add. tauto.
      * apply elem_of_cons in Hkw' as [[= -> ->] | Hkw'].
        -- left. rewrite Hi. apply elem_of_set_add. tauto.
        -- right. eauto.
Qed.

Lemma fmap_app3_inv {A B} (f : A -> B) (l : list A) k1 k2 k3 :
  f <$> l = k1 ++ k2 ++ k3 ->
  exists l1 l2 l3,
    l = l1 ++ l2 ++ l3 /\ f <$> l1 = k1 /\ f <$> l2 = k2 /\ f <$> l3 = k3.
Proof.
  intros (l1 & l' & -> & Hl' & ->)%fmap_app_inv. symmetry in Hl'.
  apply fmap_app_inv in Hl' as (l2 & l3 & -> & -> & ->).
  by exists l1, l2, l3.
Qed.

(** C4. For every description and subtypes that convert to strings, the
    amenities [extractAmenities] produces hold no duplicate, and hold a
    canonical amenity exactly when its keyword, one of the eight of the
    table, occurs in the lowercased text made of the description, a space
    and the subtypes; on ASCII text, exactly when the keyword occurs in
    that text in some letter case. *)
Theorem extractAmenities_union (description subtypes : jsvalue number)
  (d s : jsstring) :
  to_string description = Ok d -> to_string subtypes = Ok s ->
  let table := [ (lit "swing", lit "Swings");
                 (lit "slide", lit "Slides");
                 (lit "climb", lit "Climbing Frame");
                 (lit "sand", lit "Sandbox");
                 (lit "water", lit "Water Play");
                 (lit "seat", lit "Seating Area");
                 (lit "toilet", lit "Toilets");
                 (lit "parking", lit "Parking") ] in
  exists amenities,
    IndexPage.extractAmenities description subtypes = Ok amenities
    /\ NoDup amenities
    /\ (forall amenity,
          amenity ∈ amenities
          <-> exists keyword pre post,
                (keyword, amenity) ∈ table
                /\ toLowerCase (d ++ [space] ++ s) = pre ++ keyword ++ post)
    /\ (forallb is_ascii (d ++ [space] ++ s) = true ->
        forall amenity,
          amenity ∈ amenities
          <-> exists keyword pre w post,
                (keyword, amenity) ∈ table
                /\ d ++ [space] ++ s = pre ++ w ++ post
                /\ map ascii_lower w = keyword).
Proof.
  intros Hd Hs table.
  exists (fold_left
            (fun amenities '(keyword, amenity) =>
               if includes (toLowerCase (d ++ space :: s)) keyword
               then IndexPage.set_add amenity amenities else amenities)
            IndexPage.amenityKeywords []).
  split.
  { unfold IndexPage.extractAmenities, IndexPage.searchText.
    by rewrite Hd, Hs. }
  assert (forall amenity,
            amenity ∈ fold_left
              (fun amenities '(keyword, amenity) =>
                 if includes (toLowerCase (d ++ space :: s)) keyword
                 then IndexPage.set_add amenity amenities else amenities)
              IndexPage.amenityKeywords []
            <-> exists keyword pre post,
                  (keyword, amenity) ∈ table
                  /\ toLowerCase (d ++ [space] ++ s) = pre ++ keyword ++ post)
    as Hin.
  { intros amenity. rewrite elem_of_collect. split.
    - intros [Hin | (kw & Hkw & Hi)]; [by inversion Hin|].
      apply includes_spec in Hi as (pre & post & Hi). eauto 6.
    - intros (kw & pre & post & Hkw & Hi). right. exists kw. split; [done|].
      apply includes_spec. eauto. }
  split; [apply collect_NoDup, NoDup_nil_2|]. split; [exact Hin|].
  intros Hascii amenity. rewrite Hin, (toLowerCase_ascii _ Hascii). split.
  - intros (kw & pre & post & Hkw & Hi).
    apply fmap_app3_inv in Hi as (l1 & w & l3 & Hi & _ & Hw & _).
    exists kw, l1, w, l3. done.
  - intros (kw & pre & w & post & Hkw & -> & Hw).
    exists kw, (map ascii_lower pre), (map ascii_lower post).
    split; [done|]. by rewrite !map_app, Hw.
Qed.

(** The [amenities] field of an enriched record is the array
    [extractAmenities] returns for its description and subtypes. *)
Lemma enrich_amenities (playground o : jsvalue number) :
  IndexPage.enrich playground = Ok o ->
  exists description subtypes amenities,
    get playground (lit "description") = Ok description
    /\ get playground (lit "subtypes") = Ok subtypes
    /\ IndexPage.extractAmenities description subtypes = Ok amenities
    /\ get o (lit "amenities") = Ok (VArray (VString <$> amenities)).
Proof.
  unfold IndexPage.enrich.
  destruct (get playground (lit "name")) as [name|] eqn:Hn; [|done]. simpl.
  destruct (this_string name) as [name'|]; [|done]. simpl.
  destruct (get playground (lit "postal_code")) as [pc|]; [|done]. simpl.
  destruct (IndexPage.determineArea pc) as [area|]; [|done]. simpl.
  destruct (get playground (lit "description")) as [d|]; [|done]. simpl.
  destruct (get playground (lit "subtypes")) as [st|]; [|done]. simpl.
  destruct (IndexPage.extractAmenities d st) as [amenities|] eqn:Ha; [|done].
  simpl. intros [= <-]. exists d, st, amenities. repeat split; [done|].
  simpl. by rewrite lookup_insert_eq.
Qed.

End AreaAmenities.

(** ** Arrays traversed with callbacks that may throw *)

Lemma filter_cons_bool {A} (p : A -> bool) x l :
  filter (fun x => p x) (x :: l)
  = if p x then x :: filter (fun x => p x) l else filter (fun x => p x) l.
Proof. rewrite filter_cons. by destruct (p x). Qed.

Section Arrays.
Context {A B : Type}.

Lemma array_filter_inv (f : A -> result bool) l l' :
  array_filter f l = Ok l' -> l' = filter (fun x => passes f x) l.
Proof.
  revert l'. induction l as [|x l IH]; intros l'; simpl.
  - by intros [= <-].
  - rewrite filter_cons_bool. unfold passes at 1.
    destruct (f x) as [b|e]; simpl; [|done].
    destruct (array_filter f l) as [ys|e]; simpl; [|done].
    intros [= <-]. rewrite (IH ys eq_refl). by destruct b.
Qed.

Lemma array_map_total (f : A -> result B) l :
  Forall (fun x => exists y, f x = Ok y) l -> exists l', array_map f l = Ok l'.
Proof.
  induction 1 as [|x l [y Hy] _ [l' IH]]; simpl; [by eexists|].
  rewrite Hy, IH. simpl. by eexists.
Qed.

(** Each element on the right of a pointwise relation has its
    counterpart on the left. *)
Lemma Forall2_elem_r (R : A -> B -> Prop) l l' y :
  Forall2 R l l' -> y ∈ l' -> exists x, x ∈ l /\ R x y.
Proof.
  induction 1 as [|x y' l l' Hxy _ IH]; [by intros ?%elem_of_nil|].
  intros [-> | Hy]%elem_of_cons.
  - exists x. split; [left|done].
  - destruct (IH Hy) as (x' & ? & ?). exists x'. split; [by right|done].
Qed.

End Arrays.

(** ** The index page: what the processing keeps and what it adds *)

Section Processing.
Context {number : Type} `{!Number number} `{!CaseMapping}.
Import JSFacts.

#[local] Abbreviation value := (jsvalue number).

Lemma key_slug_area : lit "slug" <> lit "area".
Proof. intros E. vm_compute in E. discriminate. Qed.

Lemma key_slug_amenities : lit "slug" <> lit "amenities".
Proof. intros E. vm_compute in E. discriminate. Qed.

Lemma has_name_true (x : value) :
  IndexPage.has_name x = Ok true ->
  exists props name,
    x = VObject props /\ props !! lit "name" = Some (VString name)
    /\ name <> [].
Proof.
  unfold IndexPage.has_name.
  destruct x as [| | | | |elems|props]; simpl; try done.
  intros Hx. exists props. destruct (props !! lit "name") as [v|]; [|done].
  destruct v; simpl in Hx; try (by destruct (number_truthy _));
    try (by destruct b); try done.
  exists s. split; [done|]. split; [done|]. intros ->. done.
Qed.

Lemma has_name_error (x : value) e :
  IndexPage.has_name x = Throw e -> e = TypeError.
Proof.
  unfold IndexPage.has_name. destruct x; simpl; congruence.
Qed.

Lemma has_name_false (x : value) :
  IndexPage.has_name x = Ok false -> IndexPage.is_kept x = false.
Proof.
  unfold IndexPage.has_name, IndexPage.is_kept.
  destruct x as [| | | | |elems|props]; simpl; try done.
  destruct (props !! lit "name") as [v|]; [|done].
  destruct v; simpl; try done.
  intros [= Hs]. apply andb_false_iff in Hs as [Hs|Hs]; [|done].
  by rewrite Hs.
Qed.

Lemma determineArea_error (v : value) e :
  IndexPage.determineArea v = Throw e -> e = TypeError.
Proof.
  unfold IndexPage.determineArea. destruct (negb (truthy v)); [done|].
  destruct v; simpl; try congruence.
  repeat case_match; congruence.
Qed.

Lemma to_string_error (v : value) e : to_string v = Throw e -> e = TypeError.
Proof.
  revert v e. fix IH 1. intros v. destruct v as [| |b| | |elems|props].
  1-5, 7: clear IH; intros e; simpl; try done.
  - by destruct b.
  - destruct (props !! lit "toString"); congruence.
  - assert (Forall (fun x => forall e, to_string x = Throw e -> e = TypeError)
                   elems) as Hall.
    { induction elems as [|x l IHl]; constructor; [exact (IH x)|exact IHl]. }
    clear IH. intros e. simpl.
    match goal with
    | |- context [mbind _ (?each elems)] =>
        assert (forall e', each elems = Throw e' -> e' = TypeError) as Heach
    end.
    { induction Hall as [|x l Hx _ IHl]; intros e'; simpl; [done|].
      match goal with
      | |- context [mbind _ ?r] => destruct r as [str|e0] eqn:Ex
      end; simpl.
      - match goal with
        | |- context [mbind _ ?r] => destruct r as [strs|e1] eqn:El
        end; simpl; [done|].
        intros [= <-]. by apply IHl.
      - intros [= <-]. destruct x; try done; by apply Hx. }
    match goal with
    | |- context [mbind _ ?r] => destruct r as [strs|e0] eqn:El
    end; simpl; [done|].
    intros [= <-]. by apply Heach.
Qed.

Lemma extractAmenities_error (d st : value) e :
  IndexPage.extractAmenities d st = Throw e -> e = TypeError.
Proof.
  unfold IndexPage.extractAmenities, IndexPage.searchText.
  destruct (to_string d) eqn:Hd; simpl.
  - destruct (to_string st) eqn:Hs; simpl; [done|].
    intros [= <-]. by eapply to_string_error.
  - intros [= <-]. by eapply to_string_error.
Qed.

Lemma extractAmenities_inv (d st : value) amenities :
  IndexPage.extractAmenities d st = Ok amenities ->
  exists text,
    IndexPage.searchText d st = Ok text
    /\ amenities
       = fold_left
           (fun amenities '(keyword, amenity) =>
              if includes text keyword
              then IndexPage.set_add amenity amenities else amenities)
           IndexPage.amenityKeywords [].
Proof.
  unfold IndexPage.extractAmenities.
  destruct (IndexPage.searchText d st) as [text|]; [|done].
  intros E. exists text. split; [done|].
  change (Ok (fold_left
                (fun amenities '(keyword, amenity) =>
                   if includes text keyword
                   then IndexPage.set_add amenity amenities else amenities)
                IndexPage.amenityKeywords []) = Ok amenities) in E.
  congruence.
Qed.

(** [extractAmenities] returns exactly when ToString converts the
    description and the subtypes. *)
Lemma extractAmenities_printable (d st : value) :
  (exists amenities, IndexPage.extractAmenities d st = Ok amenities)
  <-> printable d = true /\ printable st = true.
Proof.
  unfold IndexPage.extractAmenities, IndexPage.searchText, printable.
  destruct (to_string d); simpl.
  - destruct (to_string st); simpl.
    + split; [done|]. by eexists.
    + split; [by intros [? ?]|by intros [_ ?]].
  - split; [by intros [? ?]|by intros [? _]].
Qed.

Lemma enrich_object (props : gmap jsstring value) name :
  props !! lit "name" = Some (VString name) ->
  IndexPage.enrich (VObject props)
  = (area ← IndexPage.determineArea
              (default VUndefined (props !! lit "postal_code"));
     amenities ← IndexPage.extractAmenities
                   (default VUndefined (props !! lit "description"))
                   (default VUndefined (props !! lit "subtypes"));
     Ok (IndexPage.with_added props (IndexPage.createSlug name) area
           amenities)).
Proof. intros Hn. unfold IndexPage.enrich. simpl. by rewrite Hn. Qed.

Lemma enrich_error (x : value) e :
  IndexPage.has_name x = Ok true -> IndexPage.enrich x = Throw e ->
  e = TypeError.
Proof.
  intros (props & name & -> & Hn & _)%has_name_true.
  rewrite (enrich_object props name Hn).
  destruct (IndexPage.determineArea _) eqn:Ha; simpl.
  - destruct (IndexPage.extractAmenities _ _) eqn:He; simpl; [done|].
    intros [= <-]. by eapply extractAmenities_error.
  - intros [= <-]. by eapply determineArea_error.
Qed.

(** A record with a name comes out of [enrich] as itself with the three
    fields set. *)
Lemma enrich_inv (x o : value) :
  IndexPage.has_name x = Ok true -> IndexPage.enrich x = Ok o ->
  exists props name area amenities,
    x = VObject props /\ props !! lit "name" = Some (VString name)
    /\ name <> []
    /\ IndexPage.extractAmenities
         (default VUndefined (props !! lit "description"))
         (default VUndefined (props !! lit "subtypes")) = Ok amenities
    /\ o = IndexPage.with_added props (IndexPage.createSlug name) area
             amenities.
Proof.
  intros (props & name & -> & Hn & Hne)%has_name_true.
  rewrite (enrich_object props name Hn).
  destruct (IndexPage.determineArea _) as [area|]; simpl; [|done].
  destruct (IndexPage.extractAmenities _ _) as [amenities|] eqn:He;
    simpl; [|done].
  intros [= <-]. by exists props, name, area, amenities.
Qed.

Lemma with_added_slug (props : gmap jsstring value) slug area amenities :
  get (IndexPage.with_added props slug area amenities) (lit "slug")
  = Ok (VString slug).
Proof.
  unfold IndexPage.with_added. simpl.
  rewrite lookup_insert_ne by (symmetry; apply key_slug_amenities).
  rewrite lookup_insert_ne by (symmetry; apply key_slug_area).
  by rewrite lookup_insert_eq.
Qed.

Lemma with_added_other (props : gmap jsstring value) slug area amenities k :
  k <> lit "slug" -> k <> lit "area" -> k <> lit "amenities" ->
  get (IndexPage.with_added props slug area amenities) k = get (VObject props) k.
Proof.
  intros H1 H2 H3. unfold IndexPage.with_added. simpl.
  by rewrite !lookup_insert_ne by done.
Qed.

Lemma enrich_has_slug (x o : value) :
  IndexPage.has_name x = Ok true -> IndexPage.enrich x = Ok o ->
  IndexPage.has_slug o = Ok (IndexPage.is_kept x).
Proof.
  intros Hx Ho.
  destruct (enrich_inv x o Hx Ho) as (props & name & area & amenities & -> & Hn & Hne & _ & ->).
  unfold IndexPage.has_slug. rewrite with_added_slug. simpl.
  unfold IndexPage.is_kept. simpl. rewrite Hn. simpl.
  by rewrite (bool_decide_eq_false_2 _ Hne).
Qed.

Lemma enrichable_has_name (x : value) :
  IndexPage.enrichable x = true -> exists b, IndexPage.has_name x = Ok b.
Proof.
  unfold IndexPage.enrichable, IndexPage.has_name.
  destruct x; simpl; try done; eauto.
Qed.

Lemma area_defined_determineArea (props : gmap jsstring value) :
  (exists area,
     IndexPage.determineArea (default VUndefined (props !! lit "postal_code"))
     = Ok area)
  <-> IndexPage.area_defined (VObject props) = true.
Proof.
  unfold IndexPage.area_defined, IndexPage.determineArea. simpl.
  destruct (truthy (default VUndefined _)) eqn:Ht; simpl.
  - destruct (default VUndefined _); simpl in *;
      try (split; [by intros [? ?]|done]).
    split; [done|]. intros _. repeat case_match; by eexists.
  - split; [done|]. by eexists.
Qed.

(** On a record with a name, [enrich] returns exactly when the record is
    one it accepts. *)
Lemma named_enrich (x : value) :
  IndexPage.has_name x = Ok true ->
  (exists o, IndexPage.enrich x = Ok o) <-> IndexPage.enrichable x = true.
Proof.
  intros (props & name & -> & Hn & _)%has_name_true.
  rewrite (enrich_object props name Hn).
  unfold IndexPage.enrichable. simpl.
  rewrite !andb_true_iff, <- area_defined_determineArea.
  pose proof (extractAmenities_printable
                (default VUndefined (props !! lit "description"))
                (default VUndefined (props !! lit "subtypes"))) as Hp.
  destruct (IndexPage.determineArea _) as [area|]; simpl.
  - destruct (IndexPage.extractAmenities _ _) as [amenities|]; simpl.
    + split; [|by eexists]. intros _.
      destruct (proj1 Hp) as [H1 H2]; [by eexists|].
      split; [split; [by eexists|done]|done].
    + split; [by intros [? ?]|]. intros [[_ H1] H2].
      by destruct (proj2 Hp (conj H1 H2)).
  - split; [by intros [? ?]|by intros [[[? ?] _] _]].
Qed.

Lemma enrichable_enrich (x : value) :
  IndexPage.enrichable x = true -> IndexPage.has_name x = Ok true ->
  exists o, IndexPage.enrich x = Ok o.
Proof. intros Hx Hn. by apply named_enrich. Qed.

End Processing.

Section ProcessedPlaygrounds.
Context {number : Type} `{!Number number} `{!CaseMapping}.

#[local] Abbreviation value := (jsvalue number).

Lemma array_filter_error {A} (f : A -> result bool) l e :
  Forall (fun x => forall e', f x = Throw e' -> e' = TypeError) l ->
  array_filter f l = Throw e -> e = TypeError.
Proof.
  induction 1 as [|x l Hx _ IH]; simpl; [done|].
  destruct (f x) as [b|e'] eqn:Hfx; simpl.
  - destruct (array_filter f l) as [ys|e']; simpl; [done|].
    intros [= <-]. by apply IH.
  - intros [= <-]. by apply Hx.
Qed.

Lemma array_map_error {A B} (f : A -> result B) l e :
  Forall (fun x => forall e', f x = Throw e' -> e' = TypeError) l ->
  array_map f l = Throw e -> e = TypeError.
Proof.
  induction 1 as [|x l Hx _ IH]; simpl; [done|].
  destruct (f x) as [b|e'] eqn:Hfx; simpl.
  - destruct (array_map f l) as [ys|e']; simpl; [done|].
    intros [= <-]. by apply IH.
  - intros [= <-]. by apply Hx.
Qed.

Lemma has_slug_error (x : value) e :
  IndexPage.has_slug x = Throw e -> e = TypeError.
Proof. unfold IndexPage.has_slug. destruct x; simpl; congruence. Qed.

Lemma named_have_names (l named : list value) :
  array_filter IndexPage.has_name l = Ok named ->
  Forall (fun x => IndexPage.has_name x = Ok true) named.
Proof.
  intros ->%array_filter_inv. apply Forall_forall.
  intros x [Hx _]%list_elem_of_filter. unfold passes in Hx.
  destruct (IndexPage.has_name x) as [[]|]; done.
Qed.

(** The processing of one more record: the three passes over the array
    amount to handling the records one after the other. Every exception of
    the frontmatter is a [TypeError]. *)
Lemma processedPlaygrounds_cons (x : value) l :
  IndexPage.processedPlaygrounds (x :: l)
  = match IndexPage.has_name x with
    | Throw _ => Throw TypeError
    | Ok false => IndexPage.processedPlaygrounds l
    | Ok true =>
        match IndexPage.enrich x, IndexPage.processedPlaygrounds l with
        | Ok o, Ok out => Ok (if IndexPage.is_kept x then o :: out else out)
        | _, _ => Throw TypeError
        end
    end.
Proof.
  unfold IndexPage.processedPlaygrounds. simpl.
  destruct (IndexPage.has_name x) as [[]|e] eqn:Hx; simpl.
  - destruct (array_filter IndexPage.has_name l) as [named|e] eqn:Hl; simpl.
    + pose proof (named_have_names l named Hl) as Hnamed.
      destruct (IndexPage.enrich x) as [o|e] eqn:Ho; simpl.
      * destruct (array_map IndexPage.enrich named) as [mapped|e] eqn:Hm;
          simpl.
        -- rewrite (enrich_has_slug x o Hx Ho). simpl.
           destruct (array_filter IndexPage.has_slug mapped) as [out|e]
             eqn:Hout; simpl; [done|].
           f_equal. eapply array_filter_error, Hout.
           apply Forall_forall. intros ? _ ?. apply has_slug_error.
        -- f_equal. eapply array_map_error, Hm.
           eapply Forall_impl; [exact Hnamed|]. intros ? ? ?.
           by apply enrich_error.
      * f_equal. by eapply enrich_error.
    + destruct (IndexPage.enrich x); f_equal; eapply array_filter_error, Hl;
        apply Forall_forall; intros ? _ ?; apply has_name_error.
  - by destruct (array_filter IndexPage.has_name l).
  - f_equal. by eapply has_name_error.
Qed.

(** The output is the enriched image, in input order, of the records the
    processing keeps. *)
Lemma processed_enriches_kept (playgrounds out : list value) :
  IndexPage.processedPlaygrounds playgrounds = Ok out ->
  Forall2 (fun p o => IndexPage.enrich p = Ok o)
          (filter (fun p => IndexPage.is_kept p) playgrounds) out.
Proof.
  revert out. induction playgrounds as [|x l IH]; intros out.
  - intros [= <-]. constructor.
  - rewrite processedPlaygrounds_cons, filter_cons_bool.
    destruct (IndexPage.has_name x) as [[]|e] eqn:Hx; [| |done].
    + destruct (IndexPage.enrich x) as [o|] eqn:Ho; [|done].
      destruct (IndexPage.processedPlaygrounds l) as [out'|]; [|done].
      intros [= <-]. specialize (IH out' eq_refl).
      destruct (IndexPage.is_kept x); [by constructor|done].
    + rewrite (has_name_false x Hx). apply IH.
Qed.

Lemma processed_error (l : list value) e :
  IndexPage.processedPlaygrounds l = Throw e -> e = TypeError.
Proof.
  induction l as [|x l IH]; [done|]. rewrite processedPlaygrounds_cons.
  repeat case_match; intros; simplify_eq; auto.
Qed.

Lemma processed_total (playgrounds : list value) :
  (exists out, IndexPage.processedPlaygrounds playgrounds = Ok out)
  <-> Forall (fun p => IndexPage.processable p = true) playgrounds.
Proof.
  induction playgrounds as [|x l IH]; [split; [constructor|by eexists]|].
  rewrite processedPlaygrounds_cons, Forall_cons, <- IH.
  unfold IndexPage.processable.
  destruct (IndexPage.has_name x) as [[]|] eqn:Hn.
  - rewrite <- (named_enrich x Hn).
    destruct (IndexPage.enrich x) as [o|]; simpl.
    + destruct (IndexPage.processedPlaygrounds l) as [out|].
      * split; [|by eexists]. intros _. split; by eexists.
      * split; [by intros [? ?]|by intros [_ [? ?]]].
    + split; [by intros [? ?]|by intros [[? ?] _]].
  - tauto.
  - split; [by intros [? ?]|by intros [? _]].
Qed.

End ProcessedPlaygrounds.

(** ** The detail page: the static paths *)

Section StaticPaths.
Context {number : Type} `{!Number number} `{!CaseMapping}.

#[local] Abbreviation value := (jsvalue number).

Lemma has_name_agree (x : value) :
  DetailPage.has_name x = IndexPage.has_name x.
Proof. reflexivity. Qed.

(** On a record with a name [to_path] does not throw: it yields the path
    of the slug, or nothing when the slug is empty. *)
Lemma to_path_named (x : value) :
  IndexPage.has_name x = Ok true ->
  exists name,
    get x (lit "name") = Ok (VString name)
    /\ IndexPage.is_kept x = negb (bool_decide (DetailPage.createSlug name = []))
    /\ DetailPage.to_path x
       = Ok (if bool_decide (DetailPage.createSlug name = []) then None
             else Some {| DetailPage.params_slug := DetailPage.createSlug name;
                          DetailPage.props :=
                            VObject {[ lit "playground" := x ]} |}).
Proof.
  intros (props & name & -> & Hn & Hne)%has_name_true. exists name.
  unfold DetailPage.to_path, IndexPage.is_kept. simpl. rewrite Hn. simpl.
  rewrite (bool_decide_eq_false_2 _ Hne). repeat split.
  by destruct (bool_decide _).
Qed.

Lemma getStaticPaths_cons (x : value) l :
  DetailPage.getStaticPaths (x :: l)
  = match IndexPage.has_name x with
    | Throw _ => Throw TypeError
    | Ok false => DetailPage.getStaticPaths l
    | Ok true =>
        match DetailPage.to_path x, DetailPage.getStaticPaths l with
        | Ok path, Ok paths => Ok (from_option (fun p => p :: paths) paths path)
        | _, _ => Throw TypeError
        end
    end.
Proof.
  unfold DetailPage.getStaticPaths. simpl. rewrite has_name_agree.
  destruct (IndexPage.has_name x) as [[]|e] eqn:Hx; simpl.
  - destruct (array_filter DetailPage.has_name l) as [named|e] eqn:Hl; simpl.
    + pose proof (named_have_names l named Hl) as Hnamed.
      destruct (to_path_named x Hx) as (name & _ & _ & ->). simpl.
      destruct (array_map DetailPage.to_path named) as [mapped|e] eqn:Hm;
        simpl.
      * by destruct (bool_decide _).
      * exfalso. destruct (array_map_total DetailPage.to_path named) as [? E].
        { eapply Forall_impl; [exact Hnamed|]. intros y Hy.
          destruct (to_path_named y Hy) as (? & _ & _ & ->). by eexists. }
        congruence.
    + destruct (DetailPage.to_path x); f_equal;
        eapply array_filter_error, Hl;
        apply Forall_forall; intros ? _ ?; apply has_name_error.
  - by destruct (array_filter DetailPage.has_name l).
  - f_equal. by eapply has_name_error.
Qed.

End StaticPaths.

(** ** Completeness and order of the processed records *)

Section Completeness.
Context {number : Type} `{!Number number} `{!CaseMapping}.

#[local] Abbreviation value := (jsvalue number).

Lemma filter_length_eq {A} (p : A -> bool) (l : list A) :
  length (filter (fun x => p x) l) = length l <-> Forall (fun x => p x = true) l.
Proof.
  induction l as [|x l IH]; [by split|]. rewrite filter_cons_bool.
  pose proof (length_filter (fun x => p x) l) as Hle.
  destruct (p x) eqn:Hx; simpl.
  - rewrite Forall_cons. split.
    + intros [= Hl]. split; [done|]. by apply IH.
    + intros [_ Hl]. f_equal. by apply IH.
  - split; [lia|]. intros [Hx' _]%Forall_cons. congruence.
Qed.

(** C1 (amended). The processing keeps, in input order, exactly the records
    whose name is a non-empty string with a non-empty slug, one enriched
    record for each. It returns a result exactly when every record is a
    value other than null and undefined that, if its name is a non-empty
    string, has a postal code that is absent, falsy or a string and a
    description and subtypes that convert to strings; otherwise it throws
    a [TypeError]. The output has N records exactly when every input
    record is kept. *)
Theorem processed_keeps_valid_records_in_order (playgrounds : list value) :
  ((exists out, IndexPage.processedPlaygrounds playgrounds = Ok out)
   <-> Forall (fun p => IndexPage.processable p = true) playgrounds)
  /\ (forall e, IndexPage.processedPlaygrounds playgrounds = Throw e ->
                e = TypeError)
  /\ forall out,
       IndexPage.processedPlaygrounds playgrounds = Ok out ->
       Forall2 (fun p o => IndexPage.enrich p = Ok o)
               (filter (fun p => IndexPage.is_kept p) playgrounds) out
       /\ length out <= length playgrounds
       /\ (length out = length playgrounds
           <-> Forall (fun p => IndexPage.is_kept p = true) playgrounds).
Proof.
  split; [apply processed_total|]. split; [apply processed_error|].
  intros out Hout.
  pose proof (processed_enriches_kept playgrounds out Hout) as H2.
  pose proof (Forall2_length _ _ _ H2) as Hlen.
  split; [done|]. rewrite <- Hlen. split.
  - apply length_filter.
  - apply filter_length_eq.
Qed.

Lemma is_kept_has_name (x : value) :
  IndexPage.is_kept x = true -> IndexPage.has_name x = Ok true.
Proof.
  unfold IndexPage.is_kept, IndexPage.has_name.
  destruct x as [| | | | |elems|props]; simpl; try done.
  destruct (props !! lit "name") as [v|]; [|done].
  destruct v; simpl; try done.
  intros [Hs _]%andb_true_iff. by rewrite Hs.
Qed.

(** C2 (amended). Every processed record comes from an input record and
    holds each of its fields unchanged except [slug], [area] and
    [amenities], which the processing sets (replacing a field of that name
    the input may have); [slug] is the slug of the name. *)
Theorem enrich_keeps_other_fields (playgrounds out : list value) :
  IndexPage.processedPlaygrounds playgrounds = Ok out ->
  Forall (fun o =>
            exists p name,
              p ∈ playgrounds /\ IndexPage.enrich p = Ok o
              /\ (forall k, k <> lit "slug" -> k <> lit "area" ->
                            k <> lit "amenities" -> get o k = get p k)
              /\ get p (lit "name") = Ok (VString name)
              /\ get o (lit "slug") = Ok (VString (IndexPage.createSlug name)))
         out.
Proof.
  intros Hout%processed_enriches_kept.
  apply Forall_forall. intros o Ho.
  destruct (Forall2_elem_r _ _ _ o Hout Ho) as (p & Hp & Hpo).
  apply list_elem_of_filter in Hp as [Hkept Hp].
  apply Is_true_true, is_kept_has_name in Hkept.
  destruct (enrich_inv p o Hkept Hpo)
    as (props & name & area & amenities & -> & Hn & _ & _ & ->).
  exists (VObject props), name. repeat split; try done.
  - intros k H1 H2 H3. by apply with_added_other.
  - simpl. by rewrite Hn.
  - apply with_added_slug.
Qed.

End Completeness.

(** ** The guards of the components *)

Section Guards.
Context {number : Type} `{!Number number} `{!CaseMapping}.

#[local] Abbreviation value := (jsvalue number).

Lemma paths_error (l : list value) e :
  DetailPage.getStaticPaths l = Throw e -> e = TypeError.
Proof.
  induction l as [|x l IH]; [done|]. rewrite getStaticPaths_cons.
  repeat case_match; intros; simplify_eq; auto.
Qed.

Lemma has_name_defined (p : value) :
  p <> VNull -> p <> VUndefined -> exists b, IndexPage.has_name p = Ok b.
Proof.
  intros H1 H2. unfold IndexPage.has_name. destruct p; simpl; try done; eauto.
Qed.

Lemma processed_skips (before after : list value) p :
  IndexPage.processable p = true -> IndexPage.is_kept p = false ->
  IndexPage.processedPlaygrounds (before ++ p :: after)
  = IndexPage.processedPlaygrounds (before ++ after).
Proof.
  intros Ha Hk. induction before as [|x before IH]; simpl.
  - rewrite processedPlaygrounds_cons. unfold IndexPage.processable in Ha.
    destruct (IndexPage.has_name p) as [[]|] eqn:Hn; [|done|done].
    destruct (enrichable_enrich p Ha Hn) as [o ->]. rewrite Hk.
    destruct (IndexPage.processedPlaygrounds after) as [|e] eqn:E; [done|].
    f_equal. symmetry. by eapply processed_error.
  - by rewrite !processedPlaygrounds_cons, IH.
Qed.

Lemma processed_aborts (before after : list value) p :
  IndexPage.processable p = false ->
  IndexPage.processedPlaygrounds (before ++ p :: after) = Throw TypeError.
Proof.
  intros Hp.
  destruct (IndexPage.processedPlaygrounds (before ++ p :: after))
    as [out|e] eqn:E.
  - assert (Forall (fun p => IndexPage.processable p = true)
                   (before ++ p :: after)) as Hall
      by (apply processed_total; by eexists).
    apply Forall_app in Hall as [_ [Hp' _]%Forall_cons]. congruence.
  - f_equal. by eapply processed_error.
Qed.

Lemma paths_skip (before after : list value) p :
  p <> VNull -> p <> VUndefined -> IndexPage.is_kept p = false ->
  DetailPage.getStaticPaths (before ++ p :: after)
  = DetailPage.getStaticPaths (before ++ after).
Proof.
  intros H1 H2 Hk. induction before as [|x before IH]; simpl.
  - rewrite getStaticPaths_cons.
    destruct (has_name_defined p H1 H2) as [[] Hn]; rewrite Hn; [|done].
    destruct (to_path_named p Hn) as (name & _ & Hkept & ->).
    rewrite Hk in Hkept. symmetry in Hkept. apply negb_false_iff in Hkept.
    rewrite Hkept. simpl.
    destruct (DetailPage.getStaticPaths after) as [|e] eqn:E; [done|].
    f_equal. symmetry. by eapply paths_error.
  - by rewrite !getStaticPaths_cons, IH.
Qed.

(** What the guard of the card does on the props the grid passes. *)
Lemma card_guard (playground : value) :
  PlaygroundCard.frontmatter (IndexPage.card_props playground)
  = if truthy playground && passes IndexPage.has_slug playground
    then Ok playground else Throw PlaygroundCard.missing_slug.
Proof.
  unfold PlaygroundCard.frontmatter, IndexPage.card_props. simpl.
  rewrite lookup_singleton_eq. simpl.
  unfold passes, IndexPage.has_slug.
  destruct (truthy playground) eqn:Ht; simpl; [|done].
  destruct (get playground (lit "slug")) as [slug|e] eqn:Hs; simpl.
  - by destruct (truthy slug).
  - by destruct playground.
Qed.

Lemma processed_pass_card_guard (playgrounds processed : list value) :
  IndexPage.processedPlaygrounds playgrounds = Ok processed ->
  Forall (fun p => PlaygroundCard.frontmatter (IndexPage.card_props p) = Ok p)
         processed.
Proof.
  intros Hout%processed_enriches_kept. apply Forall_forall. intros o Ho.
  destruct (Forall2_elem_r _ _ _ o Hout Ho) as (p & Hp & Hpo).
  apply list_elem_of_filter in Hp as [Hkept Hp].
  apply Is_true_true in Hkept.
  pose proof (is_kept_has_name p Hkept) as Hn.
  pose proof (enrich_has_slug p o Hn Hpo) as Hs. rewrite Hkept in Hs.
  destruct (enrich_inv p o Hn Hpo)
    as (props & name & area & amenities & _ & _ & _ & _ & Eo).
  rewrite card_guard. unfold passes. rewrite Hs. by rewrite Eo.
Qed.

Lemma paths_pass_page_guard (playgrounds : list value) paths :
  DetailPage.getStaticPaths playgrounds = Ok paths ->
  Forall (fun path =>
            exists p, DetailPage.frontmatter (DetailPage.props path) = Ok p)
         paths.
Proof.
  revert paths. induction playgrounds as [|x l IH]; intros paths.
  - intros [= <-]. constructor.
  - rewrite getStaticPaths_cons.
    destruct (IndexPage.has_name x) as [[]|] eqn:Hx; [|by apply IH|done].
    destruct (to_path_named x Hx) as (name & Hname & _ & ->).
    destruct (DetailPage.getStaticPaths l) as [paths'|]; [|done].
    intros [= <-]. specialize (IH paths' eq_refl).
    destruct (bool_decide _); simpl; [done|]. constructor; [|done].
    exists x. unfold DetailPage.frontmatter. simpl.
    rewrite lookup_singleton_eq. simpl.
    apply has_name_true in Hx as (props & name' & -> & Hn & Hne).
    simpl. rewrite Hn. simpl. by rewrite (bool_decide_eq_false_2 _ Hne).
Qed.

(** C5 (amended). A record other than null and undefined that has no name
    (absent, empty or not a string) or an empty slug is left out of the
    static paths, and of the records of the index page when the index page
    can process it, without any failure being recorded, and the other
    records are generated as if it were not there. A record the index page
    cannot process (a null element, or a named record with a truthy postal
    code that is not a string or with a description or subtypes that do
    not convert to strings) makes the index page throw a [TypeError],
    which ends the generation of every record. The guards of the card and
    of the detail page do not throw on any record these two produce. *)
Theorem invalid_records_are_skipped (playgrounds : list value) :
  (forall before p after,
     playgrounds = before ++ p :: after ->
     (p <> VNull -> p <> VUndefined -> IndexPage.is_kept p = false ->
      DetailPage.getStaticPaths playgrounds
      = DetailPage.getStaticPaths (before ++ after))
     /\ (IndexPage.processable p = true -> IndexPage.is_kept p = false ->
         IndexPage.processedPlaygrounds playgrounds
         = IndexPage.processedPlaygrounds (before ++ after))
     /\ (IndexPage.processable p = false ->
         IndexPage.processedPlaygrounds playgrounds = Throw TypeError))
  /\ (forall processed,
        IndexPage.processedPlaygrounds playgrounds = Ok processed ->
        Forall (fun p =>
                  PlaygroundCard.frontmatter (IndexPage.card_props p) = Ok p)
               processed)
  /\ (forall paths,
        DetailPage.getStaticPaths playgrounds = Ok paths ->
        Forall (fun path =>
                  exists p,
                    DetailPage.frontmatter (DetailPage.props path) = Ok p)
               paths).
Proof.
  split; [|split].
  - intros before p after ->. split; [|split].
    + apply paths_skip.
    + apply processed_skips.
    + apply processed_aborts.
  - apply processed_pass_card_guard.
  - apply paths_pass_page_guard.
Qed.

(** C8. The two copies of [createSlug] return the same slug for every
    name, and every record the index page processes carries a slug for
    which [getStaticPaths] generates a path. *)
Theorem slugs_link_to_generated_pages (playgrounds : list value) :
  (forall name, IndexPage.createSlug name = DetailPage.createSlug name)
  /\ forall processed,
       IndexPage.processedPlaygrounds playgrounds = Ok processed ->
       exists paths,
         DetailPage.getStaticPaths playgrounds = Ok paths
         /\ Forall (fun p =>
                      exists path,
                        path ∈ paths
                        /\ get p (lit "slug")
                           = Ok (VString (DetailPage.params_slug path)))
                   processed.
Proof.
  split; [apply createSlug_copies_agree|].
  induction playgrounds as [|x l IH]; intros processed.
  - intros [= <-]. by exists [].
  - rewrite processedPlaygrounds_cons, getStaticPaths_cons.
    destruct (IndexPage.has_name x) as [[]|] eqn:Hx; [|by apply IH|done].
    destruct (IndexPage.enrich x) as [o|] eqn:Ho; [|done].
    destruct (IndexPage.processedPlaygrounds l) as [out|]; [|done].
    intros [= <-]. destruct (IH out eq_refl) as (paths & -> & Hpaths).
    destruct (to_path_named x Hx) as (name & Hname & Hkept & ->).
    rewrite Hkept.
    destruct (bool_decide (DetailPage.createSlug name = [])); simpl.
    + by exists paths.
    + eexists. split; [done|]. constructor.
      * eexists. split; [left|]. simpl.
        destruct (enrich_inv x o Hx Ho)
          as (props & name' & area & amenities & -> & Hn & _ & _ & ->).
        rewrite with_added_slug. simpl in Hname. rewrite Hn in Hname.
        by injection Hname as ->.
      * eapply Forall_impl; [exact Hpaths|]. intros p (path & Hin & Hp).
        exists path. split; [by right|done].
Qed.

End Guards.

(** ** The frontmatter on sample data *)

Section Runs.
#[local] Existing Instance Z_number.
#[local] Existing Instance ascii_case.
Import Samples.

Example createSlug_coram :
  IndexPage.createSlug (lit "  Coram's Fields -- Playground! ")
  = lit "coram-s-fields-playground".
Proof. vm_compute. reflexivity. Qed.

Example createSlug_lone_hyphen : DetailPage.createSlug (lit "-") = [].
Proof. vm_compute. reflexivity. Qed.

Example determineArea_wc :
  IndexPage.determineArea (str "wc1n 1dn") = Ok (lit "West London").
Proof. vm_compute. reflexivity. Qed.

Example determineArea_ec :
  IndexPage.determineArea (str "EC1A 1BB") = Ok (lit "East London").
Proof. vm_compute. reflexivity. Qed.

Example determineArea_number :
  IndexPage.determineArea (VNumber 12345%Z) = Throw TypeError.
Proof. vm_compute. reflexivity. Qed.

Example extractAmenities_coram :
  IndexPage.extractAmenities (str "Sand pit, SWINGS and slides") VUndefined
  = Ok [lit "Swings"; lit "Slides"; lit "Sandbox"].
Proof. vm_compute. reflexivity. Qed.

Example to_string_nested_array :
  to_string (VArray [str "a"; VNull; VArray [VNumber 1%Z; VBool true]])
  = Ok (lit "a,,1,true").
Proof. vm_compute. reflexivity. Qed.

Example extractAmenities_object :
  IndexPage.extractAmenities (obj [("toString", VNumber 1%Z)]) VUndefined
  = Throw TypeError.
Proof. vm_compute. reflexivity. Qed.

Example processed_samples :
  IndexPage.processedPlaygrounds [hyde_park; coram_fields]
  = Ok [hyde_park_processed; coram_fields_processed].
Proof. vm_compute. reflexivity. Qed.

Lemma extractAmenities_union_witness :
  exists amenities,
    IndexPage.extractAmenities (str "Sand pit, SWINGS and slides") VUndefined
    = Ok amenities
    /\ NoDup amenities
    /\ (lit "Swings" ∈ amenities
        <-> exists keyword pre w post,
              (keyword, lit "Swings") ∈ IndexPage.amenityKeywords
              /\ lit "Sand pit, SWINGS and slides" ++ [space] ++ lit "undefined"
                 = pre ++ w ++ post
              /\ map ascii_lower w = keyword).
Proof.
  destruct (extractAmenities_union (str "Sand pit, SWINGS and slides")
              VUndefined (lit "Sand pit, SWINGS and slides")
              (lit "undefined"))
    as (amenities & Hout & Hnd & _ & Hin).
  { vm_compute. reflexivity. }
  { vm_compute. reflexivity. }
  exists amenities. split; [exact Hout|]. split; [exact Hnd|].
  apply Hin. vm_compute. reflexivity.
Defined.

(** C1, as stated, fails: two records go in and none comes out. *)
Lemma processed_drops_records :
  IndexPage.processedPlaygrounds [unnamed; nameless] = Ok [].
Proof. vm_compute. reflexivity. Qed.

(** Sorting for the featured subset reorders [processedPlaygrounds]
    itself: the grid, rendered afterwards, shows the records by rating. *)
Example featured_sort_reorders_processed :
  exists processed fm,
    IndexPage.processedPlaygrounds [hyde_park; coram_fields] = Ok processed
    /\ IndexPage.featured_step processed = Some fm
    /\ (fun p => get p (lit "name")) <$> processed
       = [Ok (str "Hyde Park"); Ok (str "Coram's Fields")]
    /\ (fun p => get p (lit "name")) <$> IndexPage.fm_processedPlaygrounds fm
       = [Ok (str "Coram's Fields"); Ok (str "Hyde Park")].
Proof.
  eexists _, _. split; [vm_compute; reflexivity|].
  split; [vm_compute; reflexivity|]. split; vm_compute; reflexivity.
Qed.

Lemma processed_keeps_valid_records_in_order_witness :
  exists out,
    IndexPage.processedPlaygrounds [hyde_park; unnamed; coram_fields] = Ok out
    /\ length out <= 3.
Proof.
  destruct (processed_keeps_valid_records_in_order
              [hyde_park; unnamed; coram_fields]) as (Htotal & _ & Hshape).
  destruct (proj2 Htotal) as [out Hout].
  { repeat (constructor; [vm_compute; reflexivity|]). constructor. }
  exists out. split; [exact Hout|]. apply (Hshape out Hout).
Defined.

(** C2, as stated, fails: the [slug] field of the input is replaced. *)
Lemma enrich_replaces_own_slug :
  exists o,
    IndexPage.processedPlaygrounds [with_own_slug] = Ok [o]
    /\ get with_own_slug (lit "slug") = Ok (str "x")
    /\ get o (lit "slug") = Ok (str "a-b").
Proof.
  eexists. split; [vm_compute; reflexivity|].
  split; vm_compute; reflexivity.
Qed.

Lemma enrich_keeps_other_fields_witness :
  exists out,
    IndexPage.processedPlaygrounds [hyde_park; with_own_slug] = Ok out
    /\ Forall (fun o =>
                 exists p name,
                   p ∈ [hyde_park; with_own_slug]
                   /\ IndexPage.enrich p = Ok o
                   /\ (forall k, k <> lit "slug" -> k <> lit "area" ->
                                 k <> lit "amenities" -> get o k = get p k)
                   /\ get p (lit "name") = Ok (VString name)
                   /\ get o (lit "slug")
                      = Ok (VString (IndexPage.createSlug name)))
              out.
Proof.
  assert (exists out,
            IndexPage.processedPlaygrounds [hyde_park; with_own_slug] = Ok out)
    as [out Hout] by (eexists; vm_compute; reflexivity).
  exists out. split; [exact Hout|].
  exact (enrich_keeps_other_fields [hyde_park; with_own_slug] out Hout).
Defined.

(** C5, as stated, fails: a record with a name and a numeric postal code,
    or with a description that does not convert to a string, makes the
    processing throw, and no record is generated. *)
Lemma invalid_record_aborts_processing :
  IndexPage.processedPlaygrounds [hyde_park; numeric_postcode; coram_fields]
  = Throw TypeError
  /\ IndexPage.processedPlaygrounds
       [hyde_park; object_description; coram_fields]
     = Throw TypeError
  /\ IndexPage.processedPlaygrounds [hyde_park; coram_fields]
     = Ok [hyde_park_processed; coram_fields_processed].
Proof. repeat split; vm_compute; reflexivity. Qed.

(** The guards throw when a component is handed a record without a slug
    or without a name. *)
Example guards_throw_on_invalid_record :
  PlaygroundCard.frontmatter (IndexPage.card_props hyde_park)
  = Throw (Error (lit "Invalid playground data: missing slug"))
  /\ DetailPage.frontmatter (VObject {[ lit "playground" := nameless ]})
     = Throw (Error (lit "Invalid playground data")).
Proof. split; vm_compute; reflexivity. Qed.

Lemma invalid_records_are_skipped_witness :
  IndexPage.processedPlaygrounds [hyde_park; unnamed; coram_fields]
  = IndexPage.processedPlaygrounds [hyde_park; coram_fields]
  /\ DetailPage.getStaticPaths [hyde_park; numeric_postcode; unnamed]
     = DetailPage.getStaticPaths [hyde_park; numeric_postcode]
  /\ IndexPage.processedPlaygrounds [hyde_park; numeric_postcode; unnamed]
     = Throw TypeError
  /\ exists processed,
       IndexPage.processedPlaygrounds [hyde_park; unnamed; coram_fields]
       = Ok processed
       /\ Forall (fun p =>
                    PlaygroundCard.frontmatter (IndexPage.card_props p) = Ok p)
                 processed.
Proof.
  destruct (invalid_records_are_skipped [hyde_park; unnamed; coram_fields])
    as (Hskip & Hcard & _).
  destruct (invalid_records_are_skipped
              [hyde_park; numeric_postcode; unnamed]) as (Hskip' & _ & _).
  split; [|split; [|split]].
  - apply (Hskip [hyde_park] unnamed [coram_fields]);
      vm_compute; reflexivity.
  - apply (Hskip' [hyde_park; numeric_postcode] unnamed []);
      vm_compute; [reflexivity|discriminate|discriminate|reflexivity].
  - apply (Hskip' [hyde_park] numeric_postcode [unnamed]);
      vm_compute; reflexivity.
  - assert (exists processed,
              IndexPage.processedPlaygrounds
                [hyde_park; unnamed; coram_fields] = Ok processed)
      as [processed Hp] by (eexists; vm_compute; reflexivity).
    exists processed. split; [exact Hp|]. exact (Hcard processed Hp).
Defined.

Lemma slugs_link_to_generated_pages_witness :
  exists processed paths,
    IndexPage.processedPlaygrounds [hyde_park; unnamed] = Ok processed
    /\ DetailPage.getStaticPaths [hyde_park; unnamed] = Ok paths
    /\ Forall (fun p =>
                 exists path,
                   path ∈ paths
                   /\ get p (lit "slug")
                      = Ok (VString (DetailPage.params_slug path)))
              processed.
Proof.
  destruct (slugs_link_to_generated_pages [hyde_park; unnamed])
    as [_ Hlinks].
  assert (exists processed,
            IndexPage.processedPlaygrounds [hyde_park; unnamed] = Ok processed)
    as [processed Hp] by (eexists; vm_compute; reflexivity).
  destruct (Hlinks processed Hp) as (paths & Hpaths & Hall).
  exists processed, paths. split; [exact Hp|]. split; [exact Hpaths|exact Hall].
Defined.

End Runs.

(** ** The enrichment engine: merge, retry and cache *)

Module EngineFacts.
Import Engine.

Section Scalars.
Context {A : Type} (field : PartialEnrichment -> option A).

Lemma first_reporter_spec before s after v pes :
  Forall (fun s' => reported_by field s' pes = None) before ->
  reported_by field s pes = Some v ->
  first_reporter field (before ++ s :: after) pes = Some (s, v).
Proof.
  induction 1 as [|s' before Hs' _ IH]; intros Hs; simpl.
  - by rewrite Hs.
  - rewrite Hs'. by apply IH.
Qed.

Lemma elem_of_reporters_of pes s :
  s ∈ reporters_of field pes
  <-> exists pe, pe ∈ pes /\ pe_source pe = s /\ is_Some (field pe).
Proof.
  unfold reporters_of. rewrite elem_of_list_to_set, list_elem_of_fmap.
  split.
  - intros (pe & -> & [Hf Hpe]%list_elem_of_filter). eauto.
  - intros (pe & Hpe & <- & Hf). exists pe. split; [done|].
    by apply list_elem_of_filter.
Qed.

End Scalars.

(** C3. A scalar field goes to the first source of the priority order that
    reported it, and its provenance lists every source that reported it.
    In particular, with Places reporting the rating 4.5, ReviewSite 3.0
    and the order [Places, ReviewSite], the merged rating is 4.5, reported
    by both and won by Places, whichever answer comes first. *)
Theorem scalar_priority_resolution :
  (forall (A : Type) (field : PartialEnrichment -> option A)
          before s after v pes,
     Forall (fun s' => reported_by field s' pes = None) before ->
     reported_by field s pes = Some v ->
     resolve_scalar (before ++ s :: after) field pes
     = Some (v, {| reporters := reporters_of field pes; winner := s |}))
  /\ (forall (A : Type) (field : PartialEnrichment -> option A) pes s,
        s ∈ reporters_of field pes
        <-> exists pe, pe ∈ pes /\ pe_source pe = s /\ is_Some (field pe))
  /\ (forall raw os,
        os = [Success (rated "Places" 4.5); Success (rated "ReviewSite" 3.0)]
        \/ os = [Success (rated "ReviewSite" 3.0); Success (rated "Places" 4.5)]
        ->
        er_rating (merge ["Places"; "ReviewSite"] raw os)
        = Some (4.5%Q, {| reporters := {["Places"; "ReviewSite"]};
                          winner := "Places" |})).
Proof.
  split; [|split].
  - intros A field before s after v pes Hbefore Hs. unfold resolve_scalar.
    by rewrite (first_reporter_spec field before s after v pes Hbefore Hs).
  - intros A field pes s. apply elem_of_reporters_of.
  - intros raw os [-> | ->]; simpl; unfold resolve_scalar; simpl;
      do 3 f_equal; apply set_eq; intros s;
      rewrite elem_of_reporters_of; set_unfold; naive_solver.
Qed.

Lemma scalar_priority_resolution_witness :
  resolve_scalar ["Places"; "ReviewSite"] pe_rating
    [rated "ReviewSite" 3.0; rated "Places" 4.5]
  = Some (4.5%Q,
          {| reporters :=
               reporters_of pe_rating
                 [rated "ReviewSite" 3.0; rated "Places" 4.5];
             winner := "Places" |}).
Proof.
  apply (proj1 scalar_priority_resolution Q pe_rating [] "Places"
           ["ReviewSite"]).
  - constructor.
  - reflexivity.
Defined.

(** *** The retry policy *)

Lemma replicate_shift {A} n (x : A) l :
  replicate n x ++ x :: l = x :: replicate n x ++ l.
Proof. induction n as [|n IH]; simpl; [done|]. by rewrite IH. Qed.

Lemma retry_loop_cache retries attempt src record st :
  cache (snd (retry_loop retries attempt src record st)) = cache st.
Proof.
  revert attempt st. induction retries as [|retries IH]; intros attempt st;
    simpl.
  - by repeat case_match.
  - destruct (snd src _ record) as [pe|kind message]; [done|].
    destruct (is_transient kind); [|done]. by rewrite IH.
Qed.

(** Whatever the source answers, the loop calls it between once and
    [retries + 1] times, for this record only: every call but the last
    met a Transient failure, and the outcome is the answer to the last
    call, which is a Transient failure only when the attempts are
    exhausted. *)
Lemma retry_loop_trace retries attempt src record st :
  exists n,
    1 <= n <= S retries
    /\ calls (snd (retry_loop retries attempt src record st))
       = replicate n (fst src, record) ++ calls st
    /\ (forall i, i < n - 1 ->
          exists kind message,
            snd src (length (calls st) + i) record = Fails kind message
            /\ is_transient kind = true)
    /\ match snd src (length (calls st) + (n - 1)) record with
       | Fetched pe =>
           fst (retry_loop retries attempt src record st) = Success pe
       | Fails kind message =>
           fst (retry_loop retries attempt src record st)
           = Failure_ {| f_source := fst src; f_kind := kind;
                         f_message := message;
                         f_attempt_count := attempt + (n - 1) |}
           /\ (is_transient kind = true -> n = S retries)
       end.
Proof.
  revert attempt st. induction retries as [|retries IH]; intros attempt st.
  - exists 1. simpl. rewrite !Nat.add_0_r. split; [lia|].
    destruct (snd src _ record) as [pe|kind message] eqn:Hcall.
    + repeat split; first [done | intros; lia].
    + destruct (is_transient kind);
        repeat split; first [done | intros; lia].
  - cbn [retry_loop call_source].
    destruct (snd src (length (calls st)) record) as [pe|kind message]
      eqn:Hcall.
    { exists 1. simpl. rewrite Nat.add_0_r, Hcall.
      repeat split; first [done | lia | intros; lia]. }
    destruct (is_transient kind) eqn:Hkind.
    2:{ exists 1. simpl. rewrite !Nat.add_0_r, Hcall.
        repeat split; first [done | lia | intros; lia | congruence]. }
    destruct (IH (S attempt)
                {| cache := cache st; calls := (fst src, record) :: calls st |})
      as (n & Hn & Hcalls & Hearlier & Hlast).
    exists (S n). split; [lia|]. split; [|split].
    + rewrite Hcalls. simpl. apply replicate_shift.
    + intros [|i] Hi.
      * rewrite Nat.add_0_r. eauto.
      * destruct (Hearlier i) as (k & m & Hk & Ht); [lia|].
        exists k, m. split; [|done]. simpl in Hk.
        by replace (length (calls st) + S i)
          with (S (length (calls st) + i)) by lia.
    + simpl in Hlast.
      replace (length (calls st) + (S n - 1))
        with (S (length (calls st) + (n - 1))) by lia.
      destruct (snd src (S (length (calls st) + (n - 1))) record)
        as [pe|kind' message']; [done|].
      destruct Hlast as [-> Hmax]. split; [|intros; f_equal; auto].
      do 2 f_equal. lia.
Qed.

(** A source that always fails with a Transient failure is called
    [retries + 1] times; the failure returned is the one of the last
    call. *)
Lemma retry_loop_transient retries attempt src record st :
  always_transient (snd src) record ->
  exists kind message,
    snd src (length (calls st) + retries) record = Fails kind message
    /\ is_transient kind = true
    /\ retry_loop retries attempt src record st
       = (Failure_ {| f_source := fst src; f_kind := kind;
                      f_message := message;
                      f_attempt_count := attempt + retries |},
          {| cache := cache st;
             calls := replicate (S retries) (fst src, record) ++ calls st |}).
Proof.
  intros Hsrc. revert attempt st.
  induction retries as [|retries IH]; intros attempt st.
  - destruct (Hsrc (length (calls st))) as (kind & message & Hcall & Hkind).
    exists kind, message. rewrite !Nat.add_0_r. split; [done|].
    split; [done|]. simpl. by rewrite Hcall, Hkind.
  - destruct (Hsrc (length (calls st))) as (kind & message & Hcall & Hkind).
    destruct (IH (S attempt)
                {| cache := cache st; calls := (fst src, record) :: calls st |})
      as (kind' & message' & Hlast & Hkind' & Hloop).
    exists kind', message'. simpl in Hlast.
    replace (length (calls st) + S retries)
      with (S (length (calls st) + retries)) by lia.
    split; [done|]. split; [done|].
    cbn [retry_loop call_source]. rewrite Hcall, Hkind, Hloop. simpl.
    do 3 f_equal; [lia|]. apply replicate_shift.
Qed.

(** C7. With a maximum attempt count of at least one, the retry wrapper
    calls a source at most that many times for a record, whatever the
    source answers: every call but the last met a Transient failure, and
    the wrapper returns the answer to the last call, a Transient failure
    only on exhaustion. A source that always fails with a Transient
    failure is called exactly that many times and the wrapper returns the
    failure of its last call; a Permanent failure on the first call is
    returned after that one call. *)
Theorem retry_bound (cfg : Config) (src : source_id * SourceClient)
  (record : RawRecord) (st : engine_state) :
  1 <= max_attempts cfg ->
  (exists n,
     1 <= n <= max_attempts cfg
     /\ calls (snd (with_retry cfg src record st))
        = replicate n (fst src, record) ++ calls st
     /\ (forall i, i < n - 1 ->
           exists kind message,
             snd src (length (calls st) + i) record = Fails kind message
             /\ is_transient kind = true)
     /\ match snd src (length (calls st) + (n - 1)) record with
        | Fetched pe => fst (with_retry cfg src record st) = Success pe
        | Fails kind message =>
            fst (with_retry cfg src record st)
            = Failure_ {| f_source := fst src; f_kind := kind;
                          f_message := message; f_attempt_count := n |}
            /\ (is_transient kind = true -> n = max_attempts cfg)
        end)
  /\ (always_transient (snd src) record ->
      exists kind message,
        snd src (length (calls st) + max_attempts cfg - 1) record
        = Fails kind message
        /\ is_transient kind = true
        /\ with_retry cfg src record st
           = (Failure_ {| f_source := fst src; f_kind := kind;
                          f_message := message;
                          f_attempt_count := max_attempts cfg |},
              {| cache := cache st;
                 calls := replicate (max_attempts cfg) (fst src, record)
                          ++ calls st |}))
  /\ (forall kind message,
        snd src (length (calls st)) record = Fails kind message ->
        is_transient kind = false ->
        with_retry cfg src record st
        = (Failure_ {| f_source := fst src; f_kind := kind;
                       f_message := message; f_attempt_count := 1 |},
           {| cache := cache st; calls := (fst src, record) :: calls st |})).
Proof.
  intros Hmax. unfold with_retry. split; [|split].
  - destruct (retry_loop_trace (max_attempts cfg - 1) 1 src record st)
      as (n & Hn & Hcalls & Hearlier & Hlast).
    exists n. split; [lia|]. split; [done|]. split; [done|].
    destruct (snd src _ record) as [pe|kind message]; [done|].
    destruct Hlast as [-> Hexhausted]. split.
    + do 2 f_equal. lia.
    + intros Hkind. rewrite (Hexhausted Hkind). lia.
  - intros Hsrc.
    destruct (retry_loop_transient (max_attempts cfg - 1) 1 src record st Hsrc)
      as (kind & message & Hlast & Hkind & Hloop).
    exists kind, message.
    replace (length (calls st) + max_attempts cfg - 1)
      with (length (calls st) + (max_attempts cfg - 1)) by lia.
    split; [done|]. split; [done|]. rewrite Hloop.
    replace (S (max_attempts cfg - 1)) with (max_attempts cfg) by lia.
    by replace (1 + (max_attempts cfg - 1)) with (max_attempts cfg) by lia.
  - intros kind message Hcall Hkind.
    destruct (max_attempts cfg - 1); simpl; by rewrite Hcall, Hkind.
Qed.

Lemma retry_bound_witness :
  with_retry (default_config []) ("Council", unreachable) victoria_park
    {| cache := ∅; calls := [] |}
  = (Failure_ {| f_source := "Council"; f_kind := NetworkError;
                 f_message := "timed out"; f_attempt_count := 3 |},
     {| cache := ∅;
        calls := replicate 3 ("Council", victoria_park) |})
  /\ with_retry (default_config []) ("Council", unknown_place) victoria_park
       {| cache := ∅; calls := [] |}
     = (Failure_ {| f_source := "Council"; f_kind := NotFound;
                    f_message := "no such place"; f_attempt_count := 1 |},
        {| cache := ∅; calls := [("Council", victoria_park)] |}).
Proof.
  split.
  - destruct (retry_bound (default_config []) ("Council", unreachable)
                victoria_park {| cache := ∅; calls := [] |})
      as (_ & Htransient & _); [simpl; lia|].
    destruct Htransient as (kind & message & Hlast & _ & ->).
    + intros n. by exists NetworkError, "timed out"%string.
    + simpl in Hlast. injection Hlast as <- <-. reflexivity.
  - destruct (retry_bound (default_config []) ("Council", unknown_place)
                victoria_park {| cache := ∅; calls := [] |})
      as (_ & _ & Hpermanent); [simpl; lia|].
    apply Hpermanent; reflexivity.
Defined.

(** *** The cache *)

Lemma Forall2_impl_elem {A B} (R R' : A -> B -> Prop) l l' :
  Forall2 R l l' -> (forall x y, x ∈ l -> R x y -> R' x y) ->
  Forall2 R' l l'.
Proof.
  induction 1 as [|x y l l' Hxy _ IH]; intros Himpl; constructor.
  - apply Himpl; [left|done].
  - apply IH. intros x' y' Hx'. apply Himpl. by right.
Qed.

Section Cache.
Variable cfg : Config.

Lemma fetch_cached_keeps_live now src record st o st' fp e :
  fetch_cached cfg now src record st = (o, st') ->
  cache st !! fp = Some e -> (now < ce_expires e)%Z ->
  cache st' !! fp = Some e.
Proof.
  unfold fetch_cached. intros Hfetch Hfp Hlive.
  destruct (cache_lookup now (fingerprint record (fst src)) st) as [o'|] eqn:Hl.
  - by injection Hfetch as <- <-.
  - pose proof (retry_loop_cache (max_attempts cfg - 1) 1 src record st) as Hc.
    fold (with_retry cfg src record st) in Hc.
    destruct (with_retry cfg src record st) as [o1 st1]. simpl in Hc.
    injection Hfetch as <- <-.
    destruct (cacheable o1); simpl; [|by rewrite Hc].
    rewrite Hc, lookup_insert_ne; [done|]. intros <-.
    unfold cache_lookup in Hl. rewrite Hfp in Hl. simpl in Hl.
    apply Z.ltb_lt in Hlive. by rewrite Hlive in Hl.
Qed.

Lemma fetch_cached_records now src record st o st' :
  (0 < ttl cfg)%Z ->
  fetch_cached cfg now src record st = (o, st') -> cacheable o = true ->
  exists e,
    cache st' !! fingerprint record (fst src) = Some e
    /\ ce_outcome e = o /\ (now < ce_expires e)%Z.
Proof.
  unfold fetch_cached. intros Httl Hfetch Hcacheable.
  destruct (cache_lookup now (fingerprint record (fst src)) st) as [o'|] eqn:Hl.
  - injection Hfetch as <- <-. unfold cache_lookup in Hl.
    destruct (cache st !! _) as [e|]; [|done]. simpl in Hl.
    destruct (now <? ce_expires e)%Z eqn:Hlive; [|done].
    exists e. apply Z.ltb_lt in Hlive. by injection Hl as <-.
  - destruct (with_retry cfg src record st) as [o1 st1].
    injection Hfetch as <- <-. rewrite Hcacheable. simpl.
    rewrite lookup_insert_eq. eexists. split; [done|]. simpl. split; [done|lia].
Qed.

Lemma fetch_all_keeps_live now sources record st os st' fp e :
  fetch_all cfg now sources record st = (os, st') ->
  cache st !! fp = Some e -> (now < ce_expires e)%Z ->
  cache st' !! fp = Some e.
Proof.
  revert st os. induction sources as [|src sources IH]; intros st os; simpl.
  - by intros [= <- <-].
  - destruct (fetch_cached cfg now src record st) as [o st1] eqn:H1.
    destruct (fetch_all cfg now sources record st1) as [os' st2] eqn:H2.
    intros [= <- <-] Hfp Hlive. eapply IH; [done| |done].
    by eapply fetch_cached_keeps_live.
Qed.

Lemma run_keeps_live now sources records st out st' fp e :
  run cfg now sources records st = (out, st') ->
  cache st !! fp = Some e -> (now < ce_expires e)%Z ->
  cache st' !! fp = Some e.
Proof.
  revert st out. induction records as [|record records IH]; intros st out;
    simpl.
  - by intros [= <- <-].
  - destruct (fetch_all cfg now sources record st) as [os st1] eqn:H1.
    destruct (run cfg now sources records st1) as [ers st2] eqn:H2.
    intros [= <- <-] Hfp Hlive. eapply IH; [done| |done].
    by eapply fetch_all_keeps_live.
Qed.

(** After the sources have been fetched for a record, the cache holds
    every cacheable outcome, live. *)
Lemma fetch_all_records now sources record st os st' :
  (0 < ttl cfg)%Z ->
  fetch_all cfg now sources record st = (os, st') ->
  Forall (fun o => cacheable o = true) os ->
  Forall2 (fun id o =>
             exists e,
               cache st' !! fingerprint record id = Some e
               /\ ce_outcome e = o /\ (now < ce_expires e)%Z)
          (fst <$> sources) os.
Proof.
  intros Httl. revert st os.
  induction sources as [|src sources IH]; intros st os; simpl.
  - intros [= <- <-] _. constructor.
  - destruct (fetch_cached cfg now src record st) as [o st1] eqn:H1.
    destruct (fetch_all cfg now sources record st1) as [os' st2] eqn:H2.
    intros [= <- <-] [Ho Hos]%Forall_cons. constructor; [|by eapply IH].
    destruct (fetch_cached_records now src record st o st1 Httl H1 Ho)
      as (e & He & Hout & Hlive).
    exists e. split; [|done]. by eapply fetch_all_keeps_live.
Qed.

(** When every source hits the cache, fetching returns the cached outcomes
    and leaves the state as it is: no call, no write. *)
Lemma fetch_all_hits now sources record st os :
  Forall2 (fun id o => cache_lookup now (fingerprint record id) st = Some o)
          (fst <$> sources) os ->
  fetch_all cfg now sources record st = (os, st).
Proof.
  revert os. induction sources as [|src sources IH]; intros os; simpl.
  - by intros ->%Forall2_nil_inv_l.
  - intros (o & os' & Ho & Hos & ->)%Forall2_cons_inv_l.
    unfold fetch_cached. rewrite Ho. by rewrite (IH os' Hos).
Qed.

Lemma cacheable_failures os :
  Forall (fun f => f_kind f = NotFound) (failures os) ->
  Forall (fun o => cacheable o = true) os.
Proof.
  induction os as [|[pe|f] os IH]; simpl; [constructor| |].
  - intros H. constructor; [done|by apply IH].
  - intros [Hf H]%Forall_cons. constructor; [|by apply IH].
    simpl. by rewrite Hf.
Qed.

Lemma rerun_from_final now1 now2 sources1 sources2 records st out1 st1
  st_final :
  (0 < ttl cfg)%Z ->
  fst <$> sources2 = fst <$> sources1 ->
  run cfg now1 sources1 records st = (out1, st1) ->
  Forall (fun er => Forall (fun f => f_kind f = NotFound) (er_failures er))
         out1 ->
  (forall fp e, cache st1 !! fp = Some e -> (now1 < ce_expires e)%Z ->
                cache st_final !! fp = Some e) ->
  warm now2 (fst <$> sources1) records st_final ->
  run cfg now2 sources2 records st_final = (out1, st_final).
Proof.
  intros Httl Hids. revert st out1.
  induction records as [|record records IH]; intros st out1; simpl.
  - by intros [= <- <-].
  - destruct (fetch_all cfg now1 sources1 record st) as [os sta] eqn:H1.
    destruct (run cfg now1 sources1 records sta) as [ers stb] eqn:H2.
    intros [= <- <-] [Hos Hers]%Forall_cons Hfinal Hwarm.
    simpl in Hos. apply cacheable_failures in Hos.
    pose proof (fetch_all_records now1 sources1 record st os sta Httl H1 Hos)
      as Hcached.
    rewrite (fetch_all_hits now2 sources2 record st_final os).
    + rewrite (IH sta ers H2 Hers Hfinal); [done|].
      intros r id Hr Hid. apply Hwarm; [by right|done].
    + rewrite Hids. eapply Forall2_impl_elem; [exact Hcached|].
      intros id o Hid (e & He & Hout & Hlive).
      eapply run_keeps_live in He; [|exact H2|done].
      apply Hfinal in He; [|done].
      destruct (Hwarm record id) as [o' Ho']; [left|done|].
      unfold cache_lookup in Ho' |- *. rewrite He in Ho' |- *. simpl in *.
      destruct (now2 <? ce_expires e)%Z; [by rewrite Hout|done].
Qed.

(** With a warm cache a run issues no call and writes nothing. *)
Lemma fetch_all_warm now sources record st :
  (forall id, id ∈ fst <$> sources ->
              is_Some (cache_lookup now (fingerprint record id) st)) ->
  snd (fetch_all cfg now sources record st) = st.
Proof.
  induction sources as [|src sources IH]; intros Hwarm; simpl; [done|].
  unfold fetch_cached.
  destruct (Hwarm (fst src)) as [o ->]; [left|].
  specialize (IH (fun id Hid => Hwarm id (list_elem_of_further _ _ _ Hid))).
  by destruct (fetch_all cfg now sources record st) as [os st'].
Qed.

Lemma run_warm now sources records st :
  warm now (fst <$> sources) records st ->
  snd (run cfg now sources records st) = st.
Proof.
  induction records as [|record records IH]; intros Hwarm; simpl; [done|].
  pose proof (fetch_all_warm now sources record st) as Hfetch.
  destruct (fetch_all cfg now sources record st) as [os st1].
  simpl in Hfetch. rewrite Hfetch.
  - assert (warm now (fst <$> sources) records st) as Hrest.
    { intros r id Hr Hid. apply Hwarm; [by right|done]. }
    specialize (IH Hrest).
    by destruct (run cfg now sources records st) as [ers st2].
  - intros id Hid. apply Hwarm; [left|done].
Qed.

(** C6. A run over a warm cache issues no network call and leaves the
    state as it is. When a run has left a warm cache (every source
    answered with data or NotFound, the time-to-live is positive and the
    entries are still live), running the pipeline again over the same
    input yields the same output and the same state: no call is added to
    the log and the cache is not written, whatever the sources would
    answer. *)
Theorem rerun_with_warm_cache now1 now2 sources1 sources2 records st
  out1 st1 :
  run cfg now1 sources1 records st = (out1, st1) ->
  (warm now1 (fst <$> sources1) records st -> st1 = st)
  /\ ((0 < ttl cfg)%Z ->
      fst <$> sources2 = fst <$> sources1 ->
      Forall (fun er => Forall (fun f => f_kind f = NotFound) (er_failures er))
             out1 ->
      warm now2 (fst <$> sources1) records st1 ->
      run cfg now2 sources2 records st1 = (out1, st1)).
Proof.
  intros Hrun. split.
  - intros Hwarm. pose proof (run_warm now1 sources1 records st Hwarm) as H.
    by rewrite Hrun in H.
  - intros Httl Hids Hout Hwarm. by eapply rerun_from_final.
Qed.

End Cache.

Lemma rerun_with_warm_cache_witness :
  run (default_config ["Places"; "Council"]) 86400
    [("Places", unreachable); ("Council", unreachable)]
    [victoria_park] (snd first_run)
  = (fst first_run, snd first_run).
Proof.
  apply (rerun_with_warm_cache (default_config ["Places"; "Council"])
           0 86400 [("Places", places_client); ("Council", unknown_place)]
           [("Places", unreachable); ("Council", unreachable)]
           [victoria_park] {| cache := ∅; calls := [] |}).
  - apply surjective_pairing.
  - reflexivity.
  - reflexivity.
  - vm_compute. repeat constructor.
  - intros record id ->%list_elem_of_singleton Hid.
    apply elem_of_cons in Hid as [-> | ->%list_elem_of_singleton];
      vm_compute; eexists; reflexivity.
Defined.

(** The first run above issued two calls, one per source; the run after it
    none. *)
Example first_run_calls :
  calls (snd first_run)
  = [("Council", victoria_park); ("Places", victoria_park)].
Proof. vm_compute. reflexivity. Qed.

(** A NotFound answer is cached: the second fetch for the same fingerprint
    returns it without a call. *)
Example not_found_is_cached :
  let cfg := default_config [] in
  let '(o1, st1) :=
    fetch_cached cfg 0 ("Council", unknown_place) victoria_park
      {| cache := ∅; calls := [] |} in
  let '(o2, st2) :=
    fetch_cached cfg 1 ("Council", unreachable) victoria_park st1 in
  o2 = o1 /\ calls st2 = calls st1 /\ length (calls st1) = 1.
Proof. vm_compute. repeat split. Qed.

(** Without a cached answer a Transient failure is fetched again on the
    next run: a cache that is not warm does not short-circuit. *)
Example transient_failure_not_cached :
  let cfg := default_config [] in
  let '(o1, st1) :=
    fetch_cached cfg 0 ("Council", unreachable) victoria_park
      {| cache := ∅; calls := [] |} in
  let '(o2, st2) :=
    fetch_cached cfg 1 ("Council", unreachable) victoria_park st1 in
  length (calls st1) = 3 /\ length (calls st2) = 6.
Proof. vm_compute. repeat split. Qed.

End EngineFacts.

(** ** The index page script: filtering *)

Section Filtering.
Context {number : Type} `{!Number number} `{!CaseMapping}.
Import JSLib.

#[local] Abbreviation value := (jsvalue number).

Lemma array_filter_total {A} (f : A -> result bool) l :
  Forall (fun x => exists b, f x = Ok b) l ->
  array_filter f l = Ok (filter (fun x => passes f x) l).
Proof.
  induction 1 as [|x l [b Hb] _ IH]; simpl; [done|].
  rewrite filter_cons_bool. unfold passes at 1. rewrite Hb, IH.
  by destruct b.
Qed.

Lemma array_some_total {A} (f : A -> result bool) l :
  Forall (fun x => exists b, f x = Ok b) l ->
  array_some f l = Ok (existsb (passes f) l).
Proof.
  induction 1 as [|x l [b Hb] _ IH]; simpl; [done|].
  unfold passes at 1. rewrite Hb. simpl. by destruct b.
Qed.

Lemma filter_all {A} (p : A -> bool) (l : list A) :
  Forall (fun x => p x = true) l -> filter (fun x => p x) l = l.
Proof.
  induction 1 as [|x l Hx _ IH]; [done|].
  by rewrite filter_cons_bool, Hx, IH.
Qed.

(** What [ToString] converts: every value but an object with a property
    [toString] of its own and an array that holds a value it does not
    convert. *)
Lemma printable_spec (v : value) :
  printable v
  = match v with
    | VObject props => bool_decide (props !! lit "toString" = None)
    | VArray elems => forallb printable elems
    | _ => true
    end.
Proof.
  destruct v as [| |[]| | |elems|props]; try done; unfold printable at 1;
    simpl.
  - match goal with
    | |- context [mbind _ (?each elems)] =>
        assert (match each elems with Ok _ => true | Throw _ => false end
                = forallb printable elems) as <-
    end.
    { induction elems as [|x l IH]; simpl; [done|]. rewrite <- IH.
      unfold printable.
      destruct x as [| |[]| | |elems'|props']; simpl;
        repeat match goal with
               | |- context [mbind _ ?r] => destruct r; simpl
               | |- context [match ?r with Some _ => _ | None => _ end] =>
                   destruct r; simpl
               end; done. }
    match goal with
    | |- context [mbind _ ?r] => by destruct r
    end.
  - by destruct (props !! lit "toString").
Qed.

Lemma array_join_printable sep (elems : list value) :
  (exists joined, array_join sep elems = Ok joined)
  <-> forallb printable elems = true.
Proof.
  unfold array_join.
  assert (match array_map element_string elems with
          | Ok _ => true
          | Throw _ => false
          end = forallb printable elems) as <-.
  { induction elems as [|x l IH]; simpl; [done|]. rewrite <- IH.
    unfold printable, element_string.
    destruct x as [| |[]| | |elems'|props']; simpl;
      repeat match goal with
             | |- context [mbind _ ?r] => destruct r; simpl
             | |- context [match ?r with Some _ => _ | None => _ end] =>
                 destruct r; simpl
             end; done. }
  destruct (array_map element_string elems); simpl.
  - split; [done|by eexists].
  - split; [by intros [? ?]|done].
Qed.

Lemma line_printable (v : value) :
  (exists s, IndexScript.line v = Ok s) <-> printable v = true.
Proof.
  unfold IndexScript.line, printable. destruct (to_string v); simpl.
  - split; [done|by eexists].
  - split; [by intros [? ?]|done].
Qed.

(** The search text of a record can be built exactly when the record is
    [searchable]. *)
Lemma searchable_source (p : value) :
  (exists src, IndexScript.searchableSource p = Ok src)
  <-> IndexScript.searchable p = true.
Proof.
  assert (forall v : value,
            match IndexScript.line v with
            | Ok _ => printable v = true
            | Throw _ => printable v = false
            end) as Hline.
  { intros v. unfold IndexScript.line, printable. by destruct (to_string v). }
  unfold IndexScript.searchable, IndexScript.searchableSource.
  destruct (get p (lit "name")) as [name|]; simpl;
    [|split; [by intros [? ?]|done]].
  pose proof (Hline name) as Hname.
  destruct (IndexScript.line name) as [s1|]; simpl; rewrite Hname;
    [|split; [by intros [? ?]|repeat case_match; simpl; done]].
  destruct (get p (lit "description")) as [description|]; simpl;
    [|split; [by intros [? ?]|done]].
  pose proof (Hline (or_else description (VString []))) as Hd.
  destruct (IndexScript.line (or_else description _)) as [s2|]; simpl;
    rewrite Hd; [|split; [by intros [? ?]|repeat case_match; simpl; done]].
  destruct (get p (lit "street")) as [street|]; simpl;
    [|split; [by intros [? ?]|done]].
  pose proof (Hline (or_else street (VString []))) as Hs.
  destruct (IndexScript.line (or_else street _)) as [s3|]; simpl;
    rewrite Hs; [|split; [by intros [? ?]|repeat case_match; simpl; done]].
  destruct (get p (lit "area")) as [area|]; simpl;
    [|split; [by intros [? ?]|done]].
  pose proof (Hline (or_else area (VString []))) as Ha.
  destruct (IndexScript.line (or_else area _)) as [s4|]; simpl;
    rewrite Ha; [|split; [by intros [? ?]|repeat case_match; simpl; done]].
  destruct (get p (lit "amenities")) as [amenities|]; simpl;
    [|split; [by intros [? ?]|done]].
  destruct amenities as [| | | | |elems|]; simpl;
    try (split; [by intros [? ?]|done]);
    try (split; [done|by eexists]).
  rewrite <- (array_join_printable [space] elems).
  destruct (array_join [space] elems) as [joined|]; simpl.
  - split; [by eexists|]. intros _.
    unfold or_else. simpl. by destruct (negb _); eexists.
  - split; [by intros [? ?]|by intros [? ?]].
Qed.

Lemma searchable_found (t : jsstring) (p : value) :
  IndexScript.searchable p = true -> exists b, IndexScript.found t p = Ok b.
Proof.
  intros [src Hsrc]%searchable_source.
  unfold IndexScript.found, IndexScript.searchableText.
  rewrite Hsrc. by eexists.
Qed.

Lemma filter_agree {A} (p q : A -> bool) (l : list A) :
  Forall (fun x => p x = q x) l ->
  filter (fun x => p x) l = filter (fun x => q x) l.
Proof.
  induction 1 as [|x l Hx _ IH]; [done|].
  by rewrite !filter_cons_bool, Hx, IH.
Qed.

Lemma Forall_filter_bool {A} (P : A -> Prop) (p : A -> bool) (l : list A) :
  Forall P l -> Forall P (filter (fun x => p x) l).
Proof.
  induction 1 as [|x l Hx _ IH]; [constructor|].
  rewrite filter_cons_bool. destruct (p x); [by constructor|done].
Qed.

Lemma includable_and_includes (v : value) f :
  IndexScript.includable v = true -> exists b, and_includes v f = Ok b.
Proof.
  unfold IndexScript.includable, and_includes.
  destruct (truthy v); simpl; [|by eexists].
  destruct v; simpl; try done; by eexists.
Qed.

Lemma listable_and_includes (v : value) f :
  IndexScript.listable v = true -> exists b, and_includes v f = Ok b.
Proof.
  unfold and_includes. destruct v; simpl; try done; by eexists.
Qed.

Lemma filterable_matches (p : value) f :
  IndexScript.filterable p = true ->
  exists b, IndexScript.matches_filter p f = Ok b.
Proof.
  unfold IndexScript.filterable, IndexScript.matches_filter.
  destruct (get p (lit "amenities")) as [amenities|] eqn:Ha; [|done].
  destruct (get p (lit "age_range")) as [age_range|] eqn:Hr; [|done].
  intros [Hl Hi]%andb_true_iff.
  assert (exists area, get p (lit "area") = Ok area) as [area ->].
  { destruct p; simpl in *; try done; by eexists. }
  simpl. destruct (equals_string area f); [by eexists|].
  destruct (includable_and_includes age_range f Hi) as [b1 ->]. simpl.
  destruct b1; [by eexists|].
  destruct (listable_and_includes amenities f Hl) as [b2 ->]. simpl.
  destruct b2; by eexists.
Qed.

Lemma filterable_some (p : value) fs :
  IndexScript.filterable p = true ->
  array_some (IndexScript.matches_filter p) fs
  = Ok (existsb (IndexScript.matches p) fs).
Proof.
  intros Hp. apply array_some_total, Forall_forall. intros f _.
  by apply filterable_matches.
Qed.

(** On records it can search and filter, [filterPlaygrounds] is the search
    filter followed by the checkbox filter. *)
Lemma filterPlaygrounds_filterable (ps : list value)
  (fs : list jsstring) (t : jsstring) :
  t = [] \/ Forall (fun p => IndexScript.searchable p = true) ps ->
  fs = [] \/ Forall (fun p => IndexScript.filterable p = true) ps ->
  IndexScript.filterPlaygrounds ps fs t
  = Ok (filter (fun p => IndexScript.kept_by_filters fs p)
               (filter (fun p => IndexScript.kept_by_search t p) ps)).
Proof.
  intros Hsearch Hps. unfold IndexScript.filterPlaygrounds.
  assert ((if bool_decide (t = []) then Ok ps
           else array_filter (IndexScript.found t) ps)
          = Ok (filter (fun p => IndexScript.kept_by_search t p) ps)) as ->.
  { unfold IndexScript.kept_by_search. case_bool_decide as Ht.
    - f_equal. symmetry. by apply filter_all, Forall_forall.
    - destruct Hsearch as [?|Hsearch]; [done|].
      apply array_filter_total. eapply Forall_impl; [exact Hsearch|].
      intros p Hp. by apply searchable_found. }
  simpl. unfold IndexScript.kept_by_filters. case_bool_decide as Hfs.
  - f_equal. symmetry. by apply filter_all, Forall_forall.
  - destruct Hps as [?|Hps]; [done|].
    pose proof (Forall_filter_bool _ (IndexScript.kept_by_search t) ps Hps)
      as Hsearched.
    rewrite array_filter_total.
    + f_equal. apply filter_agree.
      eapply Forall_impl; [exact Hsearched|]. intros p Hp. simpl in Hp.
      unfold passes at 1. cbv beta. rewrite filterable_some by done.
      by destruct (existsb _ _).
    + eapply Forall_impl; [exact Hsearched|]. intros p Hp. cbv beta.
      rewrite filterable_some by done. by eexists.
Qed.

Lemma filter_sublist_mono {A} (p q : A -> bool) (l : list A) :
  (forall x, p x = true -> q x = true) ->
  filter (fun x => p x) l `sublist_of` filter (fun x => q x) l.
Proof.
  intros Hpq. induction l as [|x l IH]; [done|].
  rewrite !filter_cons_bool. destruct (p x) eqn:Hp.
  - rewrite (Hpq x Hp). by constructor.
  - destruct (q x); [by constructor|done].
Qed.

Lemma filter_bool_sublist {A} (p : A -> bool) (l : list A) :
  filter (fun x => p x) l `sublist_of` l.
Proof.
  induction l as [|x l IH]; [done|]. rewrite filter_cons_bool.
  destruct (p x); by constructor.
Qed.

(** X1. What [filterPlaygrounds] returns is a sub-sequence of
    [processedPlaygrounds]: it holds no other record and keeps the order;
    with no filter and no search term it is [processedPlaygrounds]
    itself. *)
Theorem filterPlaygrounds_sublist (ps out : list value) fs t :
  IndexScript.filterPlaygrounds ps fs t = Ok out ->
  out `sublist_of` ps
  /\ (IndexScript.returns_same_array fs t = true -> out = ps).
Proof.
  unfold IndexScript.filterPlaygrounds, IndexScript.returns_same_array.
  intros Hout. split.
  - destruct (bool_decide (t = [])).
    + simpl in Hout. destruct (bool_decide (fs = [])).
      * by injection Hout as <-.
      * apply array_filter_inv in Hout as ->. apply filter_bool_sublist.
    + destruct (array_filter (IndexScript.found t) ps) as [searched|] eqn:E;
        [|done].
      apply array_filter_inv in E as ->. simpl in Hout.
      destruct (bool_decide (fs = [])).
      * injection Hout as <-. apply filter_bool_sublist.
      * apply array_filter_inv in Hout as ->.
        etrans; apply filter_bool_sublist.
  - intros [Ht Hfs]%andb_true_iff. rewrite Ht, Hfs in Hout. simpl in Hout.
    by injection Hout as <-.
Qed.

(** X2. On records it can search and filter, [filterPlaygrounds] returns
    a result, and the active filters are alternatives: with at least one
    filter active, a record that passes the search is kept exactly when
    one of the filters matches it, so that activating further filters
    never hides a record; with none active, every record that passes the
    search is kept. *)
Theorem filters_are_alternatives (ps : list value) fs gs t :
  Forall (fun p => IndexScript.searchable p = true) ps ->
  Forall (fun p => IndexScript.filterable p = true) ps ->
  fs <> [] ->
  exists searched out out',
    IndexScript.filterPlaygrounds ps [] t = Ok searched
    /\ IndexScript.filterPlaygrounds ps fs t = Ok out
    /\ IndexScript.filterPlaygrounds ps (fs ++ gs) t = Ok out'
    /\ (forall p, p ∈ out
                  <-> p ∈ searched
                      /\ exists f, f ∈ fs /\ IndexScript.matches p f = true)
    /\ out `sublist_of` out' /\ out' `sublist_of` searched.
Proof.
  intros Hsearch Hps Hfs.
  assert (fs ++ gs <> []) as Hfg by (by destruct fs).
  rewrite !filterPlaygrounds_filterable by auto.
  set (searched := filter (fun p => IndexScript.kept_by_search t p) ps).
  exists searched. eexists _, _. split; [|split; [done|split; [done|]]].
  { f_equal. apply filter_all, Forall_forall. done. }
  unfold IndexScript.kept_by_filters.
  rewrite !bool_decide_eq_false_2 by done. simpl. split; [|split].
  - intros p. rewrite list_elem_of_filter, Is_true_true, existsb_exists.
    setoid_rewrite <- list_elem_of_In. tauto.
  - apply (filter_sublist_mono (fun p => existsb (IndexScript.matches p) fs)
             (fun p => existsb (IndexScript.matches p) (fs ++ gs))).
    intros p Hp. rewrite existsb_app, Hp. done.
  - apply filter_bool_sublist.
Qed.

Lemma searchableSource_name (p : value) name src :
  get p (lit "name") = Ok (VString name) ->
  IndexScript.searchableSource p = Ok src ->
  exists pre post, src = pre ++ name ++ post.
Proof.
  intros Hn. unfold IndexScript.searchableSource. rewrite Hn. simpl.
  repeat match goal with
         | |- context [mbind _ ?r] =>
             destruct r; simpl; [|by intros ?]
         end.
  intros [= <-]. eexists (newline :: replicate 12 space), _.
  simpl. reflexivity.
Qed.

Lemma includes_map_lower text term pre w post :
  text = pre ++ w ++ post ->
  map ascii_lower term = map ascii_lower w ->
  includes (map ascii_lower text) (map ascii_lower term) = true.
Proof.
  intros -> ->. apply JSFacts.includes_spec.
  exists (map ascii_lower pre), (map ascii_lower post).
  by rewrite !map_app.
Qed.

(** X3. Searching for a piece of a record's name finds the record,
    whatever the letter case of the term: on records whose search text
    can be built, of ASCII text for the record, when the term equals a
    substring of the name up to letter case, the search keeps the
    record. *)
Theorem search_finds_name (ps : list value) (p : value) name a w b term src :
  Forall (fun p => IndexScript.searchable p = true) ps ->
  p ∈ ps ->
  get p (lit "name") = Ok (VString name) ->
  name = a ++ w ++ b ->
  term <> [] ->
  map ascii_lower term = map ascii_lower w ->
  forallb is_ascii term = true ->
  IndexScript.searchableSource p = Ok src ->
  forallb is_ascii src = true ->
  exists out, IndexScript.filterPlaygrounds ps [] term = Ok out /\ p ∈ out.
Proof.
  intros Hps Hp Hn -> Hterm Hcase Hascii Hsrc Hsrc_ascii.
  rewrite filterPlaygrounds_filterable by auto. eexists. split; [done|].
  destruct (searchableSource_name p _ src Hn Hsrc) as (pre & post & ->).
  apply list_elem_of_filter. split; [done|].
  apply list_elem_of_filter. split; [|done].
  unfold IndexScript.kept_by_search, passes, IndexScript.found,
    IndexScript.searchableText.
  rewrite Hsrc. simpl.
  rewrite !toLowerCase_ascii by done.
  rewrite (includes_map_lower _ term (pre ++ a) w (b ++ post)); [|by rewrite <- !app_assoc|done].
  by rewrite orb_true_r.
Qed.

End Filtering.

(** ** Filtering the processed records *)

Section FilteringProcessed.
Context {number : Type} `{!Number number} `{!CaseMapping}.
Import JSLib.

#[local] Abbreviation value := (jsvalue number).

Lemma determineArea_produces (v : value) area :
  IndexPage.determineArea v = Ok area -> area ∈ IndexScript.produced_areas.
Proof.
  unfold IndexPage.determineArea, IndexScript.produced_areas.
  destruct (negb (truthy v)); [intros [= <-]; repeat constructor|].
  destruct v as [| | | |s| |]; simpl; try done.
  set (code := toUpperCase s).
  destruct (startsWith code (lit "N")) eqn:HN;
    [intros [= <-]; repeat constructor|].
  destruct (startsWith code (lit "S")) eqn:HS;
    [intros [= <-]; repeat constructor|].
  destruct (startsWith code (lit "E")) eqn:HE;
    [intros [= <-]; repeat constructor|].
  destruct (startsWith code (lit "W")) eqn:HW;
    [intros [= <-]; repeat constructor|].
  assert (startsWith code (lit "WC") || startsWith code (lit "EC") = false)
    as ->.
  { apply orb_false_iff. split; apply not_true_is_false; intros Hp.
    - apply (JSFacts.startsWith_app_l code (lit "W") (lit "C")) in Hp.
      congruence.
    - apply (JSFacts.startsWith_app_l code (lit "E") (lit "C")) in Hp.
      congruence. }
  intros [= <-]; repeat constructor.
Qed.

Lemma extractAmenities_names (d s : value) amenities a :
  IndexPage.extractAmenities d s = Ok amenities ->
  a ∈ amenities -> a ∈ IndexScript.amenity_names.
Proof.
  intros (text & _ & ->)%extractAmenities_inv. rewrite elem_of_collect.
  intros [Hin | (kw & Hkw & _)]; [by inversion Hin|].
  unfold IndexScript.amenity_names. apply list_elem_of_fmap.
  by exists (kw, a).
Qed.

Lemma key_area_amenities : lit "area" <> lit "amenities".
Proof. intros E. vm_compute in E. discriminate. Qed.

Lemma with_added_area (props : gmap jsstring value) slug area amenities :
  get (IndexPage.with_added props slug area amenities) (lit "area")
  = Ok (VString area).
Proof.
  unfold IndexPage.with_added. simpl.
  rewrite lookup_insert_ne by (symmetry; apply key_area_amenities).
  by rewrite lookup_insert_eq.
Qed.

Lemma with_added_amenities (props : gmap jsstring value) slug area amenities :
  get (IndexPage.with_added props slug area amenities) (lit "amenities")
  = Ok (VArray (VString <$> amenities)).
Proof. unfold IndexPage.with_added. simpl. by rewrite lookup_insert_eq. Qed.

Lemma fmap_VString_inj (l1 l2 : list jsstring) :
  (VString <$> l1 : list value) = VString <$> l2 -> l1 = l2.
Proof.
  revert l2. induction l1 as [|x l1 IH]; intros [|y l2]; try done.
  rewrite !fmap_cons. intros [= -> Hl]. f_equal. by apply IH.
Qed.

Lemma existsb_equals_string (l : list jsstring) f :
  existsb (fun e : value => equals_string e f) (VString <$> l)
  = bool_decide (f ∈ l).
Proof.
  induction l as [|x l IH]; [done|].
  rewrite fmap_cons. cbn [existsb equals_string]. rewrite IH.
  destruct (decide (x = f)) as [-> | Hne].
  - rewrite bool_decide_eq_true_2 by done. simpl. symmetry.
    apply bool_decide_eq_true_2. left.
  - rewrite (bool_decide_eq_false_2 (x = f)) by done. simpl.
    apply bool_decide_ext. rewrite elem_of_cons.
    split; [tauto|]. intros [E|?]; [congruence|done].
Qed.

(** What the checkbox filter makes of an enriched record that has no age
    range. *)
Lemma matches_with_added (props : gmap jsstring value) slug area amenities f :
  truthy (default VUndefined (props !! lit "age_range")) = false ->
  IndexScript.matches_filter
    (IndexPage.with_added props slug area amenities) f
  = Ok (bool_decide (area = f) || bool_decide (f ∈ amenities)).
Proof.
  intros Hage. unfold IndexScript.matches_filter.
  rewrite with_added_area, with_added_amenities, with_added_other by
    (intros E; vm_compute in E; discriminate).
  simpl. case_bool_decide; [done|]. simpl.
  unfold and_includes at 1. rewrite Hage. simpl.
  rewrite existsb_equals_string. by destruct (bool_decide _).
Qed.

Lemma filterable_with_added (props : gmap jsstring value) slug area amenities :
  truthy (default VUndefined (props !! lit "age_range")) = false ->
  IndexScript.filterable (IndexPage.with_added props slug area amenities)
  = true.
Proof.
  intros Hage. unfold IndexScript.filterable.
  rewrite with_added_amenities, with_added_other by
    (intros E; vm_compute in E; discriminate).
  simpl. unfold IndexScript.includable. by rewrite Hage.
Qed.

(** The shape of the records the processing returns, for input records
    without an age range. *)
Lemma processed_shape (playgrounds processed : list value) :
  IndexPage.processedPlaygrounds playgrounds = Ok processed ->
  Forall (fun p => IndexScript.no_age_range p = true) playgrounds ->
  Forall (fun o =>
            exists props slug area amenities,
              o = IndexPage.with_added props slug area amenities
              /\ truthy (default VUndefined (props !! lit "age_range")) = false
              /\ area ∈ IndexScript.produced_areas
              /\ Forall (fun a => a ∈ IndexScript.amenity_names) amenities)
         processed.
Proof.
  intros Hout%processed_enriches_kept Hage.
  apply Forall_forall. intros o Ho.
  destruct (Forall2_elem_r _ _ _ o Hout Ho) as (p & Hp & Hpo).
  apply list_elem_of_filter in Hp as [Hkept Hp].
  apply Is_true_true, is_kept_has_name in Hkept.
  rewrite Forall_forall in Hage. specialize (Hage p Hp).
  destruct (has_name_true p Hkept) as (props & name & -> & Hn & Hne).
  rewrite (enrich_object props name Hn) in Hpo.
  destruct (IndexPage.determineArea _) as [area|] eqn:Harea; [|done].
  simpl in Hpo.
  destruct (IndexPage.extractAmenities _ _) as [amenities|] eqn:Hams;
    [|done].
  simpl in Hpo. injection Hpo as <-.
  eexists props, _, area, amenities. split; [done|]. split; [|split].
  - unfold IndexScript.no_age_range in Hage. simpl in Hage.
    by apply negb_true_iff.
  - by eapply determineArea_produces.
  - apply Forall_forall. intros a. by eapply extractAmenities_names.
Qed.

(** X4. On the records the processing returns for data without age
    ranges, a single checkbox filter never throws and keeps exactly the
    records whose area is the filter or whose amenities hold it. *)
Theorem filter_by_area_or_amenity (playgrounds processed : list value) f :
  IndexPage.processedPlaygrounds playgrounds = Ok processed ->
  Forall (fun p => IndexScript.no_age_range p = true) playgrounds ->
  exists out,
    IndexScript.filterPlaygrounds processed [f] [] = Ok out
    /\ forall o,
         o ∈ out
         <-> o ∈ processed
             /\ (get o (lit "area") = Ok (VString f)
                 \/ exists amenities,
                      get o (lit "amenities")
                      = Ok (VArray (VString <$> amenities))
                      /\ f ∈ amenities).
Proof.
  intros Hout Hage. pose proof (processed_shape _ _ Hout Hage) as Hshape.
  rewrite filterPlaygrounds_filterable; [|by left|].
  2:{ right. eapply Forall_impl; [exact Hshape|].
      intros o (props & slug & area & ams & -> & Hage' & _).
      by apply filterable_with_added. }
  eexists. split; [done|]. intros o.
  rewrite !list_elem_of_filter. unfold IndexScript.kept_by_search.
  rewrite bool_decide_eq_true_2 by done. simpl.
  split.
  - intros (Hm & _ & Ho). split; [done|].
    rewrite Forall_forall in Hshape.
    destruct (Hshape o Ho) as (props & slug & area & ams & -> & Hage' & _).
    unfold IndexScript.kept_by_filters, IndexScript.matches, passes in Hm.
    simpl in Hm. rewrite matches_with_added in Hm by done.
    rewrite orb_false_r in Hm.
    destruct (decide (area = f)) as [-> | Hne].
    + left. apply with_added_area.
    + right. exists ams. split.
      * apply with_added_amenities.
      * rewrite (bool_decide_eq_false_2 (area = f)) in Hm by done.
        simpl in Hm. destruct (bool_decide (f ∈ ams)) eqn:E; [|done].
        by apply bool_decide_eq_true_1 in E.
  - intros (Ho & Hmatch). split; [|by split].
    rewrite Forall_forall in Hshape.
    destruct (Hshape o Ho) as (props & slug & area & ams & -> & Hage' & _).
    unfold IndexScript.kept_by_filters, IndexScript.matches, passes.
    simpl. rewrite matches_with_added by done. rewrite orb_false_r.
    destruct Hmatch as [Harea | (l & Hl & Hf)].
    + rewrite with_added_area in Harea.
      injection Harea as ->. by rewrite bool_decide_eq_true_2.
    + rewrite with_added_amenities in Hl. injection Hl as Hl.
      apply fmap_VString_inj in Hl. subst l.
      rewrite (bool_decide_eq_true_2 (f ∈ ams)) by done.
      by destruct (bool_decide (area = f)).
Qed.

Lemma filter_none {A} (p : A -> bool) (l : list A) :
  Forall (fun x => p x = false) l -> filter (fun x => p x) l = [].
Proof.
  induction 1 as [|x l Hx _ IH]; [done|].
  by rewrite filter_cons_bool, Hx.
Qed.

Lemma unproduced_filter (playgrounds processed : list value) f :
  IndexPage.processedPlaygrounds playgrounds = Ok processed ->
  Forall (fun p => IndexScript.no_age_range p = true) playgrounds ->
  f ∉ IndexScript.produced_areas -> f ∉ IndexScript.amenity_names ->
  IndexScript.filterPlaygrounds processed [f] [] = Ok [].
Proof.
  intros Hout Hage Harea Hamenity.
  pose proof (processed_shape _ _ Hout Hage) as Hshape.
  rewrite filterPlaygrounds_filterable; [|by left|].
  2:{ right. eapply Forall_impl; [exact Hshape|].
      intros o (props & slug & area & ams & -> & Hage' & _).
      by apply filterable_with_added. }
  f_equal. apply filter_none, Forall_filter_bool.
  eapply Forall_impl; [exact Hshape|].
  intros o (props & slug & area & ams & -> & Hage' & Ha & Hams).
  unfold IndexScript.kept_by_filters, IndexScript.matches, passes. simpl.
  rewrite matches_with_added by done.
  rewrite (bool_decide_eq_false_2 (area = f)) by (by intros ->).
  rewrite (bool_decide_eq_false_2 (f ∈ ams)); [done|].
  intros Hf. rewrite Forall_forall in Hams. by apply Hamenity, Hams.
Qed.

(** X5. When the data has no age ranges, the 'Central London' checkbox and
    every age-range checkbox of the filter bar empty the grid: no processed
    record has such an area or amenity. *)
Theorem unproduced_filters_match_nothing (playgrounds processed : list value)
  f :
  IndexPage.processedPlaygrounds playgrounds = Ok processed ->
  Forall (fun p => IndexScript.no_age_range p = true) playgrounds ->
  f ∈ lit "Central London" :: FilterBar.ageRanges ->
  IndexScript.filterPlaygrounds processed [f] [] = Ok [].
Proof.
  intros Hout Hage Hf. apply (unproduced_filter playgrounds); [done|done| |].
  - apply (bool_decide_eq_false_1 (f ∈ IndexScript.produced_areas)).
    repeat (apply elem_of_cons in Hf as [-> | Hf];
            [vm_compute; reflexivity|]).
    by apply elem_of_nil in Hf.
  - apply (bool_decide_eq_false_1 (f ∈ IndexScript.amenity_names)).
    repeat (apply elem_of_cons in Hf as [-> | Hf];
            [vm_compute; reflexivity|]).
    by apply elem_of_nil in Hf.
Qed.

End FilteringProcessed.

(** ** The filter bar: the URL of a filter selection *)

Section SharedURL.
Import JSLib.

Lemma split_no_separator sep (s : jsstring) : sep ∉ s -> split sep s = [s].
Proof.
  induction s as [|c s IH]; [done|]. intros Hs.
  apply not_elem_of_cons in Hs as [Hc Hs]. simpl.
  destruct (N.eqb_spec c sep) as [->|_]; [done|]. by rewrite IH.
Qed.

Lemma split_app sep (s rest : jsstring) :
  sep ∉ s -> split sep (s ++ sep :: rest) = s :: split sep rest.
Proof.
  induction s as [|c s IH]; intros Hs; simpl.
  - by rewrite N.eqb_refl.
  - apply not_elem_of_cons in Hs as [Hc Hs].
    destruct (N.eqb_spec c sep) as [->|_]; [done|]. by rewrite IH.
Qed.

Lemma split_join sep (l : list jsstring) :
  l <> [] -> Forall (fun s => sep ∉ s) l -> split sep (join [sep] l) = l.
Proof.
  intros Hl Hsep. induction Hsep as [|s l Hs Hrest IH]; [done|].
  destruct l as [|s' l]; simpl.
  - by apply split_no_separator.
  - rewrite split_app by done. f_equal. by apply IH.
Qed.

(** The number of separators in a string. *)
Lemma length_split sep (s : jsstring) :
  length (split sep s) = S (length (filter (fun c => c = sep) s)).
Proof.
  unfold jsstring in *. induction s as [|c s IH]; [done|]. cbn [split].
  destruct (N.eqb_spec c sep) as [->|Hne].
  - rewrite filter_cons_True by done. cbn [length]. by rewrite IH.
  - rewrite filter_cons_False by done.
    destruct (split sep s); cbn [length] in *; [done|lia].
Qed.

Lemma separators_join sep (l : list jsstring) :
  l <> [] ->
  length (filter (fun c => c = sep) (join [sep] l))
  = length l - 1
    + sum_list ((fun s => length (filter (fun c => c = sep) s)) <$> l).
Proof.
  unfold jsstring in *. intros Hl. induction l as [|s l IH]; [done|].
  destruct l as [|s' l].
  - simpl. lia.
  - change (join [sep] (s :: s' :: l)) with (s ++ sep :: join [sep] (s' :: l)).
    rewrite filter_app, length_app, filter_cons_True by done.
    cbn [length]. rewrite IH by done. simpl. lia.
Qed.

Lemma no_separator_count sep (s : jsstring) :
  length (filter (fun c => c = sep) s) = 0 -> sep ∉ s.
Proof.
  unfold jsstring in *. intros Hcount Hin.
  assert (sep ∈ filter (fun c => c = sep) s) as Hf
    by (by apply list_elem_of_filter).
  destruct (filter _ s); [by apply elem_of_nil in Hf|done].
Qed.

Lemma sum_list_zero (l : list nat) : sum_list l = 0 -> Forall (fun n => n = 0) l.
Proof.
  induction l as [|n l IH]; [constructor|]. simpl. intros Hs.
  constructor; [lia|]. apply IH. lia.
Qed.

Lemma join_split_round_trip sep (l : list jsstring) :
  l <> [] ->
  split sep (join [sep] l) = l <-> Forall (fun s => sep ∉ s) l.
Proof.
  intros Hl. split; [|by apply split_join].
  intros Hsplit. apply (f_equal length) in Hsplit.
  rewrite length_split, separators_join in Hsplit by done.
  assert (sum_list ((fun s => length (filter (fun c => c = sep) s)) <$> l) = 0)
    as Hsum by (destruct l; [done|simpl in *; lia]).
  apply sum_list_zero, Forall_fmap in Hsum.
  eapply Forall_impl; [exact Hsum|]. intros s. apply no_separator_count.
Qed.

(** X6. The URL [updateURL] writes gives back, through
    [getFiltersFromURL], the active filters and the sort value it was
    written from exactly when no filter contains a comma (the sort value
    not being empty). *)
Theorem url_round_trip (activeFilters : list jsstring) (sortValue : jsstring) :
  sortValue <> [] ->
  FilterBar.getFiltersFromURL (FilterBar.updateURL activeFilters sortValue)
  = {| FilterBar.filters := activeFilters; FilterBar.sort := sortValue |}
  <-> Forall (fun f => comma ∉ f) activeFilters.
Proof.
  intros Hsort. unfold FilterBar.getFiltersFromURL, FilterBar.updateURL.
  assert ((match
             FilterBar.params_get (lit "sort")
               ((if bool_decide (activeFilters = []) then []
                 else [(lit "filters", join [comma] activeFilters)])
                ++ (if bool_decide (sortValue = lit "rating-desc") then []
                    else [(lit "sort", sortValue)]))
           with
           | Some s => if bool_decide (s = []) then lit "rating-desc" else s
           | None => lit "rating-desc"
           end) = sortValue) as ->.
  { destruct (bool_decide (activeFilters = []));
      case_bool_decide as Hs; subst; simpl; try done;
      by rewrite bool_decide_eq_false_2. }
  destruct (decide (activeFilters = [])) as [-> | Hne].
  - simpl. split; [constructor|]. intros _.
    by destruct (bool_decide (sortValue = lit "rating-desc")).
  - rewrite (bool_decide_eq_false_2 (activeFilters = [])) by done. simpl.
    rewrite <- (join_split_round_trip comma activeFilters Hne).
    split; [by intros [= ?]|by intros ->].
Qed.

(** X7. [loadSavedPreferences] always takes the preferences from the URL:
    the sort [getFiltersFromURL] returns is never empty, so the branch
    that reads the saved filters and sort from the local storage is never
    taken. *)
Theorem saved_preferences_never_read (search : FilterBar.search_params) :
  FilterBar.sort (FilterBar.getFiltersFromURL search) <> []
  /\ FilterBar.preference_source_of search
     = FilterBar.FromURL (FilterBar.getFiltersFromURL search).
Proof.
  assert (FilterBar.sort (FilterBar.getFiltersFromURL search) <> []) as Hsort.
  { unfold FilterBar.getFiltersFromURL. simpl.
    destruct (FilterBar.params_get (lit "sort") search) as [s|]; [|done].
    by case_bool_decide. }
  split; [done|]. unfold FilterBar.preference_source_of.
  rewrite (bool_decide_eq_false_2 _ Hsort). by rewrite orb_true_r.
Qed.

End SharedURL.

(** ** Sorting *)

Section Sorting.
Context {A : Type} (cmp : A -> A -> comparison).




Hypothesis cmp_antisym : forall x y, cmp x y = Gt -> cmp y x <> Gt.
Hypothesis cmp_trans :
  forall x y z, cmp x y <> Gt -> cmp y z <> Gt -> cmp x z <> Gt.



End Sorting.


Section SortHandlerFacts.
Context {number : Type} `{!Number number} `{!CaseMapping} `{!Collation}.

#[local] Abbreviation value := (jsvalue number).





End SortHandlerFacts.

(** ** The pages [getStaticPaths] generates *)

Section StaticPathsFacts.
Context {number : Type} `{!Number number} `{!CaseMapping}.

#[local] Abbreviation value := (jsvalue number).

Lemma has_name_throws (x : value) :
  (exists e, IndexPage.has_name x = Throw e) <-> x = VNull \/ x = VUndefined.
Proof.
  unfold IndexPage.has_name. split.
  - intros [e He]. destruct x; simpl in He; try done; auto.
  - intros [-> | ->]; by eexists.
Qed.

(** X11. The pages are generated in the order of the cards: the k-th
    static path carries the slug of the k-th processed record, and its
    props hold the record of the data, not enriched, that this processed
    record was made from. *)
Theorem paths_follow_processed (playgrounds processed : list value) :
  IndexPage.processedPlaygrounds playgrounds = Ok processed ->
  exists paths,
    DetailPage.getStaticPaths playgrounds = Ok paths
    /\ Forall2 (fun o path =>
                  get o (lit "slug")
                  = Ok (VString (DetailPage.params_slug path))
                  /\ DetailPage.params_slug path <> []
                  /\ exists p,
                       p ∈ playgrounds
                       /\ IndexPage.enrich p = Ok o
                       /\ DetailPage.props path
                          = VObject {[ lit "playground" := p ]})
               processed paths.
Proof.
  revert processed. induction playgrounds as [|x l IH]; intros processed.
  - intros [= <-]. by exists [].
  - rewrite processedPlaygrounds_cons, getStaticPaths_cons.
    destruct (IndexPage.has_name x) as [[]|] eqn:Hx; [| |done].
    + destruct (IndexPage.enrich x) as [o|] eqn:Ho; [|done].
      destruct (IndexPage.processedPlaygrounds l) as [out|]; [|done].
      intros [= <-]. destruct (IH out eq_refl) as (paths & -> & Hpaths).
      assert (Forall2 (fun o path =>
                get o (lit "slug")
                = Ok (VString (DetailPage.params_slug path))
                /\ DetailPage.params_slug path <> []
                /\ exists p,
                     p ∈ x :: l /\ IndexPage.enrich p = Ok o
                     /\ DetailPage.props path
                        = VObject {[ lit "playground" := p ]}) out paths)
        as Hrest.
      { eapply Forall2_impl; [exact Hpaths|].
        intros o' path (? & ? & p & ? & ? & ?). split; [done|].
        split; [done|]. exists p. split; [by right|done]. }
      destruct (to_path_named x Hx) as (name & Hname & Hkept & ->).
      rewrite Hkept.
      destruct (bool_decide (DetailPage.createSlug name = [])) eqn:Hs; simpl.
      * by exists paths.
      * eexists. split; [done|]. constructor; [|done]. simpl.
        destruct (enrich_inv x o Hx Ho)
          as (props & name' & area & amenities & -> & Hn & _ & _ & Eo).
        simpl in Hname. rewrite Hn in Hname. injection Hname as ->.
        split; [by rewrite Eo, with_added_slug|].
        split; [by apply bool_decide_eq_false in Hs|].
        exists (VObject props). split; [left|done].
    + intros Hl. destruct (IH processed Hl) as (paths & -> & Hpaths).
      exists paths. split; [done|].
      eapply Forall2_impl; [exact Hpaths|].
      intros o' path (? & ? & p & ? & ? & ?). split; [done|].
      split; [done|]. exists p. split; [by right|done].
Qed.

(** X12. [getStaticPaths] returns exactly when no element of the data is
    [null] or [undefined]: no other record makes it throw, whatever its
    fields hold. *)
Theorem paths_throw_only_on_null (playgrounds : list value) :
  (exists paths, DetailPage.getStaticPaths playgrounds = Ok paths)
  <-> Forall (fun p => p <> VNull /\ p <> VUndefined) playgrounds.
Proof.
  induction playgrounds as [|x l IH].
  - split; [constructor|by exists []].
  - rewrite getStaticPaths_cons, Forall_cons, <- IH.
    destruct (IndexPage.has_name x) as [[]|e] eqn:Hx.
    + destruct (to_path_named x Hx) as (name & _ & _ & ->).
      apply has_name_true in Hx as (props & _ & -> & _).
      destruct (DetailPage.getStaticPaths l) as [paths|].
      * split; [by eauto|by eexists].
      * split; [by intros [? ?]|by intros [_ [? ?]]].
    + split; [|by intros [_ ?]]. intros Hl. split; [|done].
      split; intros ->; done.
    + split; [by intros [? ?]|]. intros [[H1 H2] _].
      destruct (proj1 (has_name_throws x)) as [->| ->]; by eauto.
Qed.

End StaticPathsFacts.

(** ** The rating in the templates *)

Section TemplateFacts.
Context {number : Type} `{!Number number} `{!CaseMapping} `{!Rounding number}.

#[local] Abbreviation value := (jsvalue number).

Lemma key_rating : lit "rating" <> lit "slug" /\ lit "rating" <> lit "area"
                   /\ lit "rating" <> lit "amenities".
Proof. repeat split; intros E; vm_compute in E; discriminate. Qed.

Lemma rating_badge_throws (playground rating : value) :
  get playground (lit "rating") = Ok rating ->
  (Templates.rating_badge playground = Throw TypeError
   <-> truthy rating = true /\ Templates.is_number rating = false)
  /\ forall e, Templates.rating_badge playground = Throw e -> e = TypeError.
Proof.
  intros Hr. unfold Templates.rating_badge. rewrite Hr. simpl.
  destruct (truthy rating) eqn:Ht.
  - destruct rating; simpl; split; try (split; [by auto|by intros [_ ?]]);
      try (split; [done|by auto]); intros e; congruence.
  - split; [split; [done|by intros [? _]]|done].
Qed.

(** X13. On every record the index page processes, the guard of the card
    passes and the rating badge shows the rating of the data record; the
    badge throws, a [TypeError], exactly when that rating is truthy and
    not a number (a non-empty string, [true], an array, an object). *)
Theorem card_throws_only_on_rating (playgrounds processed : list value) :
  IndexPage.processedPlaygrounds playgrounds = Ok processed ->
  Forall (fun o =>
            exists p rating,
              p ∈ playgrounds /\ IndexPage.enrich p = Ok o
              /\ get p (lit "rating") = Ok rating
              /\ (Templates.card_rating_badge (IndexPage.card_props o)
                  = Throw TypeError
                  <-> truthy rating = true
                      /\ Templates.is_number rating = false)
              /\ (forall n, rating = VNumber n ->
                    Templates.card_rating_badge (IndexPage.card_props o)
                    = Ok (if number_truthy n then Some n else None))
              /\ forall e,
                   Templates.card_rating_badge (IndexPage.card_props o)
                   = Throw e -> e = TypeError)
         processed.
Proof.
  intros Hout. pose proof (processed_pass_card_guard _ _ Hout) as Hguard.
  apply processed_enriches_kept in Hout.
  apply Forall_forall. intros o Ho.
  destruct (Forall2_elem_r _ _ _ o Hout Ho) as (p & Hp & Hpo).
  apply list_elem_of_filter in Hp as [Hkept Hp].
  apply Is_true_true in Hkept.
  pose proof (is_kept_has_name p Hkept) as Hn.
  destruct (enrich_inv p o Hn Hpo)
    as (props & name & area & amenities & -> & _ & _ & _ & Eo).
  exists (VObject props), (default VUndefined (props !! lit "rating")).
  split; [done|]. split; [done|]. split; [done|].
  unfold Templates.card_rating_badge.
  rewrite (proj1 (Forall_forall _ _) Hguard o Ho). simpl.
  assert (get o (lit "rating")
          = Ok (default VUndefined (props !! lit "rating"))) as Hr.
  { destruct key_rating as (? & ? & ?). rewrite Eo.
    by rewrite with_added_other. }
  destruct (rating_badge_throws o _ Hr) as [Hiff Herr].
  split; [done|]. split; [|done].
  intros n En. unfold Templates.rating_badge. rewrite Hr, En. simpl.
  by destruct (number_truthy n).
Qed.

(** X14. The reviews section of the detail page, for a record whose
    [reviews] is truthy: a rating that is not a number throws a
    [TypeError]; a number whose rounding is from 0 to 5 gives that many
    full stars and five stars in all; any other number throws a
    [RangeError]. *)
Theorem reviews_stars (playground reviews rating : value) :
  get playground (lit "reviews") = Ok reviews -> truthy reviews = true ->
  get playground (lit "rating") = Ok rating ->
  (Templates.is_number rating = false ->
   Templates.reviews_section playground
   = Templates.Faulted Templates.TypeErrorFault)
  /\ forall r, rating = VNumber r ->
       ((0 <= math_round r <= 5)%Z ->
        exists s,
          Templates.reviews_section playground = Templates.Shown (Some (r, s))
          /\ Z.of_nat (Templates.full s) = math_round r
          /\ Templates.full s + Templates.empty s = 5)
       /\ ((math_round r < 0 \/ 5 < math_round r)%Z ->
           Templates.reviews_section playground
           = Templates.Faulted Templates.RangeErrorFault).
Proof.
  intros Hv Ht Hr. unfold Templates.reviews_section. rewrite Hv, Hr, Ht.
  split; [by destruct rating|]. intros r ->. unfold Templates.repeat_count.
  split.
  - intros [Hlo Hhi].
    rewrite (proj2 (Z.ltb_ge _ _) Hlo).
    rewrite (proj2 (Z.ltb_ge (5 - math_round r) 0)) by lia.
    eexists. split; [done|]. simpl. lia.
  - intros [Hneg|Hbig].
    + by rewrite (proj2 (Z.ltb_lt _ _) Hneg).
    + destruct (math_round r <? 0)%Z; [done|].
      by rewrite (proj2 (Z.ltb_lt (5 - math_round r) 0)) by lia.
Qed.

End TemplateFacts.

(** ** More on areas and amenities *)

Section AreaAmenitiesFacts.
Context {number : Type} `{!Number number} `{!CaseMapping}.
Import JSFacts.

#[local] Abbreviation value := (jsvalue number).

Lemma collect_in_order text (keywords : list (jsstring * jsstring)) acc :
  NoDup (acc ++ (snd <$> keywords)) ->
  fold_left
    (fun amenities '(keyword, amenity) =>
       if includes text keyword
       then IndexPage.set_add amenity amenities else amenities)
    keywords acc
  = acc ++ (snd <$> filter (fun kv => includes text (fst kv)) keywords).
Proof.
  revert acc. induction keywords as [|[kw a] keywords IH]; intros acc Hnd.
  - simpl. by rewrite app_nil_r.
  - simpl fold_left. rewrite filter_cons_bool. simpl fst.
    rewrite fmap_cons in Hnd. simpl in Hnd.
    destruct (includes text kw).
    + unfold IndexPage.set_add. rewrite bool_decide_eq_false_2.
      * rewrite IH; [by rewrite <- app_assoc|].
        by rewrite <- app_assoc.
      * apply NoDup_app in Hnd as (_ & Hnd & _). intros Ha.
        apply (Hnd a Ha). left.
    + apply IH. apply NoDup_app in Hnd as (Hacc & Hdisj & Hkw).
      apply NoDup_app. split; [done|]. split.
      * intros x Hx Hin. apply (Hdisj x Hx). by right.
      * by apply NoDup_cons in Hkw as [_ ?].
Qed.

(** X15. The amenities come out in the order of the keyword table,
    whatever the order in which the keywords occur in the text: they are
    the amenities of the table entries whose keyword occurs in the search
    text, so at most eight, and a sublist of the eight canonical names. *)
Theorem extractAmenities_table_order (description subtypes : value) :
  IndexPage.extractAmenities description subtypes
  = (text ← IndexPage.searchText description subtypes;
     Ok (snd <$> filter (fun kv => includes text (fst kv))
                        IndexPage.amenityKeywords))
  /\ forall amenities,
       IndexPage.extractAmenities description subtypes = Ok amenities ->
       sublist amenities (snd <$> IndexPage.amenityKeywords)
       /\ length amenities <= 8.
Proof.
  assert (IndexPage.extractAmenities description subtypes
          = (text ← IndexPage.searchText description subtypes;
             Ok (snd <$> filter (fun kv => includes text (fst kv))
                                IndexPage.amenityKeywords))) as E.
  { unfold IndexPage.extractAmenities.
    destruct (IndexPage.searchText description subtypes) as [text|]; [|done].
    change (Ok (fold_left
                  (fun amenities '(keyword, amenity) =>
                     if includes text keyword
                     then IndexPage.set_add amenity amenities else amenities)
                  IndexPage.amenityKeywords [])
            = Ok (snd <$> filter (fun kv => includes text (fst kv))
                                 IndexPage.amenityKeywords)).
    rewrite collect_in_order; [done|].
    apply (bool_decide_unpack _). vm_compute. exact I. }
  split; [done|]. intros amenities. rewrite E.
  destruct (IndexPage.searchText description subtypes) as [text|]; [|done].
  intros [= <-].
  assert (sublist
            (snd <$> filter (fun kv => includes text (fst kv))
                            IndexPage.amenityKeywords)
            (snd <$> IndexPage.amenityKeywords)) as Hsub.
  { apply fmap_sublist, sublist_filter. }
  split; [done|]. apply sublist_length in Hsub.
  by rewrite (length_fmap _ IndexPage.amenityKeywords) in Hsub.
Qed.

Lemma upper_is (c u : code_unit) :
  is_upper u = true ->
  (ascii_upper c =? u)%N = bool_decide (c ∈ [u; (u + 32)%N]).
Proof.
  intros Hu. unfold ascii_upper, is_upper, is_lower in *.
  apply andb_true_iff in Hu as [Hlo%N.leb_le Hhi%N.leb_le].
  case_bool_decide as Hc.
  - apply N.eqb_eq.
    apply elem_of_cons in Hc as [->|Hc%list_elem_of_singleton].
    + rewrite (proj2 (N.leb_gt 97 u)) by lia. done.
    + subst c. rewrite (proj2 (N.leb_le 97 (u + 32))) by lia.
      rewrite (proj2 (N.leb_le (u + 32) 122)) by lia. simpl. lia.
  - apply N.eqb_neq. intros E. apply Hc.
    destruct (97 <=? c)%N eqn:H1, (c <=? 122)%N eqn:H2; simpl in E;
      try (subst c; left; done).
    apply N.leb_le in H1, H2. apply elem_of_cons. right.
    apply list_elem_of_singleton. lia.
Qed.

(** X16. The area of a postal code of ASCII characters is decided by its
    first character, whatever its case: N, S, E and W give North, South,
    East and West London, any other character 'Other London'. *)
Theorem determineArea_first_letter (c : code_unit) (rest : jsstring) :
  forallb is_ascii (c :: rest) = true ->
  IndexPage.determineArea (VString (c :: rest) : value)
  = Ok (if bool_decide (c ∈ lit "Nn") then lit "North London"
        else if bool_decide (c ∈ lit "Ss") then lit "South London"
        else if bool_decide (c ∈ lit "Ee") then lit "East London"
        else if bool_decide (c ∈ lit "Ww") then lit "West London"
        else lit "Other London").
Proof.
  intros Hascii. unfold IndexPage.determineArea. simpl.
  rewrite (toUpperCase_ascii _ Hascii). simpl map.
  change (lit "N") with [78%N]. change (lit "S") with [83%N].
  change (lit "E") with [69%N]. change (lit "W") with [87%N].
  change (lit "WC") with [87%N; 67%N]. change (lit "EC") with [69%N; 67%N].
  change (lit "Nn") with [78%N; (78 + 32)%N].
  change (lit "Ss") with [83%N; (83 + 32)%N].
  change (lit "Ee") with [69%N; (69 + 32)%N].
  change (lit "Ww") with [87%N; (87 + 32)%N].
  assert (forall s : jsstring, startsWith s [] = true) as Hnil
    by (by intros [|]).
  cbn [startsWith]. rewrite !Hnil, !andb_true_r.
  rewrite !upper_is by done.
  repeat (destruct (bool_decide _); [done|]). done.
Qed.

(** X17. A record whose [description] and [subtypes] are both absent or
    [null] is processed with an empty list of amenities: the text searched
    is then 'undefined undefined' (or with 'null'), which holds no
    keyword. *)
Theorem no_text_no_amenities (playground o description subtypes : value) :
  IndexPage.enrich playground = Ok o ->
  get playground (lit "description") = Ok description ->
  get playground (lit "subtypes") = Ok subtypes ->
  description = VUndefined \/ description = VNull ->
  subtypes = VUndefined \/ subtypes = VNull ->
  get o (lit "amenities") = Ok (VArray []).
Proof.
  intros Ho Hd Hs Ed Es.
  destruct (enrich_amenities playground o Ho)
    as (d & s & amenities & Hd' & Hs' & Ha & ->).
  rewrite Hd in Hd'. rewrite Hs in Hs'.
  injection Hd' as <-. injection Hs' as <-.
  assert (IndexPage.extractAmenities description subtypes = Ok []) as E.
  { unfold IndexPage.extractAmenities, IndexPage.searchText.
    destruct Ed as [-> | ->], Es as [-> | ->]; simpl to_string;
      cbn [mbind result_bind];
      (rewrite toLowerCase_ascii by reflexivity); vm_compute; reflexivity. }
  rewrite E in Ha. by injection Ha as <-.
Qed.

End AreaAmenitiesFacts.

(** ** The client script and the templates on sample data *)

Section ScriptRuns.
#[local] Existing Instance Z_number.
#[local] Existing Instance ascii_case.
#[local] Existing Instance code_unit_collation.
#[local] Existing Instance Z_rounding.
Import Samples.

Lemma filterPlaygrounds_sublist_witness :
  exists out,
    IndexScript.filterPlaygrounds [hyde_park; coram_fields] [] (lit "hyde")
    = Ok out
    /\ out `sublist_of` [hyde_park; coram_fields].
Proof.
  assert (exists out,
            IndexScript.filterPlaygrounds [hyde_park; coram_fields] []
              (lit "hyde") = Ok out)
    as [out Hout] by (eexists; vm_compute; reflexivity).
  exists out. split; [exact Hout|].
  exact (proj1 (filterPlaygrounds_sublist _ _ _ _ Hout)).
Defined.

Lemma filters_are_alternatives_witness :
  exists searched out out',
    IndexScript.filterPlaygrounds
      [hyde_park_processed; coram_fields_processed] [] (lit "london")
    = Ok searched
    /\ IndexScript.filterPlaygrounds
         [hyde_park_processed; coram_fields_processed] [lit "Swings"]
         (lit "london") = Ok out
    /\ IndexScript.filterPlaygrounds
         [hyde_park_processed; coram_fields_processed]
         ([lit "Swings"] ++ [lit "West London"]) (lit "london") = Ok out'
    /\ out `sublist_of` out' /\ out' `sublist_of` searched
    /\ out = [coram_fields_processed]
    /\ out' = [hyde_park_processed; coram_fields_processed].
Proof.
  destruct (filters_are_alternatives
              [hyde_park_processed; coram_fields_processed]
              [lit "Swings"] [lit "West London"] (lit "london"))
    as (searched & out & out' & Hs & Hout & Hout' & _ & Hsub & Hsub').
  { repeat (constructor; [vm_compute; reflexivity|]). constructor. }
  { repeat (constructor; [vm_compute; reflexivity|]). constructor. }
  { vm_compute. discriminate. }
  exists searched, out, out'.
  split; [exact Hs|]. split; [exact Hout|]. split; [exact Hout'|].
  split; [exact Hsub|]. split; [exact Hsub'|].
  assert (IndexScript.filterPlaygrounds
            [hyde_park_processed; coram_fields_processed] [lit "Swings"]
            (lit "london") = Ok [coram_fields_processed]) as E
    by (vm_compute; reflexivity).
  assert (IndexScript.filterPlaygrounds
            [hyde_park_processed; coram_fields_processed]
            ([lit "Swings"] ++ [lit "West London"]) (lit "london")
          = Ok [hyde_park_processed; coram_fields_processed]) as E'
    by (vm_compute; reflexivity).
  rewrite E in Hout. rewrite E' in Hout'.
  injection Hout as <-. injection Hout' as <-. split; reflexivity.
Defined.

Lemma search_finds_name_witness :
  exists out,
    IndexScript.filterPlaygrounds [hyde_park; coram_fields] [] (lit "pARK")
    = Ok out
    /\ hyde_park ∈ out.
Proof.
  assert (exists src, IndexScript.searchableSource hyde_park = Ok src
                      /\ forallb is_ascii src = true)
    as (src & Hsrc & Hascii)
    by (eexists; split; vm_compute; reflexivity).
  apply (search_finds_name [hyde_park; coram_fields] hyde_park
           (lit "Hyde Park") (lit "Hyde ") (lit "Park") [] (lit "pARK") src).
  - repeat (constructor; [vm_compute; reflexivity|]). constructor.
  - left.
  - vm_compute. reflexivity.
  - vm_compute. reflexivity.
  - vm_compute. discriminate.
  - vm_compute. reflexivity.
  - vm_compute. reflexivity.
  - exact Hsrc.
  - exact Hascii.
Defined.

Lemma filter_by_area_or_amenity_witness :
  exists processed out,
    IndexPage.processedPlaygrounds [hyde_park; coram_fields] = Ok processed
    /\ IndexScript.filterPlaygrounds processed [lit "Swings"] [] = Ok out
    /\ forall o,
         o ∈ out
         <-> o ∈ processed
             /\ (get o (lit "area") = Ok (VString (lit "Swings"))
                 \/ exists amenities,
                      get o (lit "amenities")
                      = Ok (VArray (VString <$> amenities))
                      /\ lit "Swings" ∈ amenities).
Proof.
  assert (exists processed,
            IndexPage.processedPlaygrounds [hyde_park; coram_fields]
            = Ok processed)
    as [processed Hp] by (eexists; vm_compute; reflexivity).
  destruct (filter_by_area_or_amenity [hyde_park; coram_fields] processed
              (lit "Swings") Hp) as (out & Hout & Hshape).
  { repeat (constructor; [vm_compute; reflexivity|]). constructor. }
  exists processed, out. split; [exact Hp|]. split; [exact Hout|exact Hshape].
Defined.

Lemma unproduced_filters_match_nothing_witness :
  exists processed,
    IndexPage.processedPlaygrounds [hyde_park; coram_fields] = Ok processed
    /\ IndexScript.filterPlaygrounds processed [lit "Central London"] []
       = Ok [].
Proof.
  assert (exists processed,
            IndexPage.processedPlaygrounds [hyde_park; coram_fields]
            = Ok processed)
    as [processed Hp] by (eexists; vm_compute; reflexivity).
  exists processed. split; [exact Hp|].
  apply (unproduced_filters_match_nothing [hyde_park; coram_fields] processed
           (lit "Central London") Hp).
  - repeat (constructor; [vm_compute; reflexivity|]). constructor.
  - left.
Defined.

Lemma url_round_trip_witness :
  FilterBar.getFiltersFromURL
    (FilterBar.updateURL [lit "Swings"; lit "North London"] (lit "name-asc"))
  = {| FilterBar.filters := [lit "Swings"; lit "North London"];
       FilterBar.sort := lit "name-asc" |}.
Proof.
  apply (url_round_trip [lit "Swings"; lit "North London"] (lit "name-asc")).
  - vm_compute. discriminate.
  - apply (bool_decide_unpack _). vm_compute. exact I.
Defined.



Lemma paths_follow_processed_witness :
  exists processed paths,
    IndexPage.processedPlaygrounds [hyde_park; unnamed; coram_fields]
    = Ok processed
    /\ DetailPage.getStaticPaths [hyde_park; unnamed; coram_fields] = Ok paths
    /\ Forall2 (fun o path =>
                  get o (lit "slug")
                  = Ok (VString (DetailPage.params_slug path))
                  /\ DetailPage.params_slug path <> []
                  /\ exists p,
                       p ∈ [hyde_park; unnamed; coram_fields]
                       /\ IndexPage.enrich p = Ok o
                       /\ DetailPage.props path
                          = VObject {[ lit "playground" := p ]})
               processed paths.
Proof.
  assert (exists processed,
            IndexPage.processedPlaygrounds [hyde_park; unnamed; coram_fields]
            = Ok processed)
    as [processed Hp] by (eexists; vm_compute; reflexivity).
  destruct (paths_follow_processed [hyde_park; unnamed; coram_fields]
              processed Hp) as (paths & Hpaths & Hall).
  exists processed, paths. split; [exact Hp|].
  split; [exact Hpaths|exact Hall].
Defined.

Lemma card_throws_only_on_rating_witness :
  exists processed,
    IndexPage.processedPlaygrounds
      [hyde_park; obj [("name", str "Mile End"); ("rating", str "4.5")]]
    = Ok processed
    /\ Forall (fun o =>
                 forall e,
                   Templates.card_rating_badge (IndexPage.card_props o)
                   = Throw e -> e = TypeError)
              processed.
Proof.
  assert (exists processed,
            IndexPage.processedPlaygrounds
              [hyde_park; obj [("name", str "Mile End");
                               ("rating", str "4.5")]]
            = Ok processed)
    as [processed Hp] by (eexists; vm_compute; reflexivity).
  exists processed. split; [exact Hp|].
  eapply Forall_impl; [exact (card_throws_only_on_rating _ processed Hp)|].
  intros o (p & rating & _ & _ & _ & _ & _ & Herr). exact Herr.
Defined.

Lemma reviews_stars_witness :
  exists s,
    Templates.reviews_section
      (obj [("name", str "Mile End"); ("rating", VNumber 4%Z);
            ("reviews", VNumber 12%Z)])
    = Templates.Shown (Some (4%Z, s))
    /\ Templates.full s + Templates.empty s = 5.
Proof.
  destruct (reviews_stars
              (obj [("name", str "Mile End"); ("rating", VNumber 4%Z);
                    ("reviews", VNumber 12%Z)])
              (VNumber 12%Z) (VNumber 4%Z)) as [_ Hnum].
  { vm_compute. reflexivity. }
  { vm_compute. reflexivity. }
  { vm_compute. reflexivity. }
  destruct (Hnum 4%Z eq_refl) as [Hin _].
  destruct Hin as (s & Hs & _ & Hfive); [simpl; lia|].
  exists s. split; [exact Hs|exact Hfive].
Defined.

Lemma determineArea_first_letter_witness :
  IndexPage.determineArea (str "n1 9gu") = Ok (lit "North London").
Proof.
  pose proof (determineArea_first_letter 110%N (lit "1 9gu") eq_refl) as H.
  vm_compute in H. vm_compute. exact H.
Defined.

Lemma no_text_no_amenities_witness :
  exists o,
    IndexPage.enrich hyde_park = Ok o
    /\ get o (lit "amenities") = Ok (VArray []).
Proof.
  assert (exists o, IndexPage.enrich hyde_park = Ok o)
    as [o Ho] by (eexists; vm_compute; reflexivity).
  exists o. split; [exact Ho|].
  apply (no_text_no_amenities hyde_park o VUndefined VUndefined Ho).
  - vm_compute. reflexivity.
  - vm_compute. reflexivity.
  - left. reflexivity.
  - left. reflexivity.
Defined.

End ScriptRuns.
